(** * Decoder of the distributed assembly flexible job shop (utils.py)

    A shallow embedding of the scheduling utilities of [utils.py]
    ([makespan], [insert_operation_to_schedule],
    [finish_time_of_last_operation], [schedule_in_single_factory],
    [schedule_in_multiple_factory]) together with the properties of the
    decoder.  Python integers are [Z]; Python lists are [list], read with
    stdpp's lookup and written with stdpp's insert; an exception raised by
    the interpreter is an explicit [Raise]. *)

From stdpp Require Import base list.
From Stdlib Require Import ZArith Lia.
From Stdlib Require String Ascii HexString DecimalString.

Local Open Scope Z_scope.

(** ** Exceptions *)

Inductive exn : Type :=
  | IndexError   (* list index out of range *)
  | TypeError    (* list indices must be integers, not NoneType *)
  | ValueError.  (* max() arg is an empty sequence *)

Inductive result (A : Type) : Type :=
  | Ok (a : A)
  | Raise (e : exn).

Arguments Ok {A} a.
Arguments Raise {A} e.

Definition bind {A B : Type} (r : result A) (k : A -> result B) : result B :=
  match r with
  | Ok a => k a
  | Raise e => Raise e
  end.

Notation "x <- e ;; k" := (bind e (fun x => k))
  (at level 100, e at next level, right associativity).

(** ** Python list indexing

    [l[i]] accepts [-len(l) <= i < len(l)]; a negative index counts from
    the end of the list. *)

Definition py_index (len : nat) (i : Z) : result nat :=
  if (0 <=? i) && (i <? Z.of_nat len) then Ok (Z.to_nat i)
  else if (- Z.of_nat len <=? i) && (i <? 0) then Ok (Z.to_nat (Z.of_nat len + i))
  else Raise IndexError.

Definition getitem {A : Type} (l : list A) (i : Z) : result A :=
  idx <- py_index (length l) i ;;
  match l !! idx with
  | Some x => Ok x
  | None => Raise IndexError
  end.

(** ** Slots and schedules

    A slot is the tuple [(job, start, end)]; a machine schedule is a list
    of slots. *)

Record slot : Type := Slot { slot_job : Z; slot_start : Z; slot_end : Z }.

Abbreviation schedule := (list slot) (only parsing).

(** [schedule[-1][-1]], with the value [makespan] gives to an empty
    schedule. *)
Definition finish_of (s : schedule) : Z :=
  match last s with
  | None => 0
  | Some sl => slot_end sl
  end.

(** The builtin [max] of a list of integers. *)
Definition py_max (l : list Z) : result Z :=
  match l with
  | [] => Raise ValueError
  | x :: rest => Ok (foldl Z.max x rest)
  end.

(** ** makespan (utils.py, lines 12-19) *)

Definition makespan (schedules : list schedule) : result Z :=
  let finish_times :=
    map (fun s : schedule =>
           if (length s =? 0)%nat then 0 else finish_of s) schedules in
  py_max finish_times.

(** ** insert_operation_to_schedule (utils.py, lines 22-60)

    [find_idle] is the [for] loop over [enumerate(zip(schedule_, schedule))]:
    it returns the index and the start of the first idle gap that
    fits.  Of the dummy schedule [schedule_] only the end times are read,
    so [schedule_] is the list of end times with the dummy [0] in front. *)

Fixpoint find_idle (time_of_operation finish_time_of_previous_operation : Z)
    (index : nat) (pairs : list (Z * slot)) : option (nat * Z) :=
  match pairs with
  | [] => None
  | (start_of_idle, slot2) :: rest =>
      let end_of_idle := slot_start slot2 in
      let start := Z.max finish_time_of_previous_operation start_of_idle in
      if (finish_time_of_previous_operation <? end_of_idle)
         && (time_of_operation <=? end_of_idle - start)
      then Some (index, start)
      else find_idle time_of_operation finish_time_of_previous_operation
             (S index) rest
  end.

Definition insert_operation_to_schedule
    (time_of_operation job_of_operation finish_time_of_previous_operation : Z)
    (sched : schedule) : schedule :=
  match sched with
  | [] =>
      [Slot job_of_operation finish_time_of_previous_operation
         (finish_time_of_previous_operation + time_of_operation)]
  | _ :: _ =>
      let schedule_ := 0 :: map slot_end sched in
      match find_idle time_of_operation finish_time_of_previous_operation
              0 (zip schedule_ sched) with
      | Some (index, start) =>
          take index sched
            ++ [Slot job_of_operation start (start + time_of_operation)]
            ++ drop index sched
      | None =>
          let start_of_idle := finish_of sched in
          let start := Z.max finish_time_of_previous_operation start_of_idle in
          sched ++ [Slot job_of_operation start (start + time_of_operation)]
      end
  end.

(** ** finish_time_of_last_operation (utils.py, lines 63-73) *)

Definition finish_time_of_last_operation (job : Z)
    (schedules : list schedule) : Z :=
  foldl (fun max_end schedule_in_machine =>
           foldl (fun max_end sl =>
                    if (slot_job sl =? job) && (max_end <? slot_end sl)
                    then slot_end sl else max_end)
                 max_end schedule_in_machine)
        0 schedules.

(** ** schedule_in_single_factory (utils.py, lines 76-107) *)

(** Lines 94-98: the trial schedule of one machine and its makespan. *)
Definition try_machine (gene finish_time : Z)
    (machine_schedules : list schedule) (machine : nat)
    (time_of_operation : Z) : result (schedule * Z) :=
  match machine_schedules !! machine with
  | None => Raise IndexError
  | Some current =>
      let sched := insert_operation_to_schedule time_of_operation gene
                     finish_time current in
      tmp_makespan <- makespan (sched :: machine_schedules) ;;
      Ok (sched, tmp_makespan)
  end.

(** Lines 90-102: the loop over [enumerate(operation)], carrying
    [(best_makespan, best_machine, best_schedule)], [None] before the first
    machine. *)
Fixpoint select_machine (gene finish_time : Z)
    (machine_schedules : list schedule) (machine : nat)
    (operation : list Z) (best : option (Z * nat * schedule))
    : result (option (Z * nat * schedule)) :=
  match operation with
  | [] => Ok best
  | time_of_operation :: rest =>
      trial <- try_machine gene finish_time machine_schedules machine
                 time_of_operation ;;
      let '(sched, tmp_makespan) := trial in
      let best' :=
        match best with
        | None => Some (tmp_makespan, machine, sched)
        | Some (best_makespan, _, _) =>
            if tmp_makespan <? best_makespan
            then Some (tmp_makespan, machine, sched)
            else best
        end in
      select_machine gene finish_time machine_schedules (S machine) rest best'
  end.

(** The state of the loop over the genome: [operation_counter] and
    [machine_schedules]. *)
Definition decoder_state : Type := (list nat * list schedule)%type.

(** Line 86: [jobs[gene][operation_counter[gene]]]. *)
Definition next_operation (jobs : list (list (list Z)))
    (operation_counter : list nat) (gene : Z) : result (list Z) :=
  job <- getitem jobs gene ;;
  counter <- getitem operation_counter gene ;;
  match job !! counter with
  | Some operation => Ok operation
  | None => Raise IndexError
  end.

(** Line 105: [operation_counter[gene] += 1]. *)
Definition increment_counter (operation_counter : list nat) (gene : Z)
    : result (list nat) :=
  idx <- py_index (length operation_counter) gene ;;
  match operation_counter !! idx with
  | Some counter => Ok (<[idx := S counter]> operation_counter)
  | None => Raise IndexError
  end.

(** Lines 85-105: the body of the loop over the genome. *)
Definition schedule_gene (jobs : list (list (list Z)))
    (st : decoder_state) (gene : Z) : result decoder_state :=
  let '(operation_counter, machine_schedules) := st in
  operation <- next_operation jobs operation_counter gene ;;
  let finish_time := finish_time_of_last_operation gene machine_schedules in
  best <- select_machine gene finish_time machine_schedules 0 operation None ;;
  match best with
  | None => Raise TypeError
  | Some (_, best_machine, best_schedule) =>
      let machine_schedules' :=
        <[best_machine := best_schedule]> machine_schedules in
      operation_counter' <- increment_counter operation_counter gene ;;
      Ok (operation_counter', machine_schedules')
  end.

Fixpoint schedule_genes (jobs : list (list (list Z)))
    (st : decoder_state) (genome : list Z) : result decoder_state :=
  match genome with
  | [] => Ok st
  | gene :: rest =>
      st' <- schedule_gene jobs st gene ;;
      schedule_genes jobs st' rest
  end.

Definition schedule_in_single_factory (genome : list Z)
    (jobs : list (list (list Z))) (n_machines : Z) : result (list schedule) :=
  let n_jobs := length jobs in
  let operation_counter := replicate n_jobs 0%nat in
  let machine_schedules := replicate (Z.to_nat n_machines) ([] : schedule) in
  st <- schedule_genes jobs (operation_counter, machine_schedules) genome ;;
  Ok (snd st).

(** ** schedule_in_multiple_factory (utils.py, lines 110-132) *)

(** Lines 117-118: [subgenomes[fac].append(op)] over [zip]. *)
Fixpoint distribute (subgenomes : list (list Z)) (pairs : list (Z * Z))
    : result (list (list Z)) :=
  match pairs with
  | [] => Ok subgenomes
  | (op, fac) :: rest =>
      idx <- py_index (length subgenomes) fac ;;
      match subgenomes !! idx with
      | Some subgenome =>
          distribute (<[idx := subgenome ++ [op]]> subgenomes) rest
      | None => Raise IndexError
      end
  end.

(** Lines 121-125: one single-factory decoding per sub-genome, in order. *)
Fixpoint decode_factories (subgenomes : list (list Z))
    (jobs : list (list (list Z))) (n_machines : Z)
    : result (list (list schedule)) :=
  match subgenomes with
  | [] => Ok []
  | subgenome :: rest =>
      fs <- schedule_in_single_factory subgenome jobs n_machines ;;
      others <- decode_factories rest jobs n_machines ;;
      Ok (fs :: others)
  end.

Definition schedule_in_multiple_factory (operation_genome factory_genome : list Z)
    (jobs : list (list (list Z))) (n_machines n_factories : Z)
    : result (Z * list (list schedule)) :=
  subgenomes <- distribute (replicate (Z.to_nat n_factories) [])
                  (zip operation_genome factory_genome) ;;
  schedules <- decode_factories subgenomes jobs n_machines ;;
  let tmp := concat schedules in
  m <- makespan tmp ;;
  Ok (m, schedules).

(** ** The reference scenario (example.py) *)

Definition INF : Z := 100000000000000.

Definition example_jobs : list (list (list Z)) :=
  [ [ [7; 10; 11]; [2; 8; INF] ];
    [ [7; 6; 10]; [9; 9; 7]; [12; 7; 13] ];
    [ [17; INF; 9]; [14; 10; INF]; [10; 6; 5] ] ].

Definition example_operation_genome : list Z := [2; 2; 1; 0; 1; 0; 1; 2].
Definition example_factory_genome : list Z := [0; 0; 0; 1; 0; 1; 0; 0].


(** ** dec2color (utils.py, lines 224-230)

    Strings are those of the standard library; the builtin [hex] is
    [HexString.of_Z], which writes ["0x"] and lower-case digits, with
    ["-"] in front for a negative number, as Python does. *)

Module Color.
Import Stdlib.Strings.String Stdlib.Strings.Ascii.
#[local] Open Scope string_scope.

(** The builtin [hex]. *)
Definition hex (dec : Z) : string := HexString.of_Z dec.

(** The slice [s[n:]]. *)
Fixpoint slice_from (n : nat) (s : string) : string :=
  match n, s with
  | O, _ => s
  | S n', String _ s' => slice_from n' s'
  | S _, EmptyString => EmptyString
  end.

Fixpoint copies (n : nat) (s : string) : string :=
  match n with
  | O => EmptyString
  | S n' => append s (copies n' s)
  end.

(** The product [s * n]: the empty string when [n] is not positive. *)
Definition times (s : string) (n : Z) : string := copies (Z.to_nat n) s.

Definition dec2color (dec : Z) : string :=
  let color_string := slice_from 2 (hex dec) in
  let color_string :=
    append (append "#" (times "0" (6 - Z.of_nat (length color_string))))
      color_string in
  color_string.

(** Every character of [s] is one of [chars]. *)
Fixpoint made_of (chars s : string) : Prop :=
  match s with
  | EmptyString => True
  | String c s' => In c (list_ascii_of_string chars) /\ made_of chars s'
  end.

End Color.

(** ** pretty_print (utils.py, lines 135-142)

    What [pretty_print] writes to the standard output is the string it
    returns here; [str] of an integer is its decimal notation, and [str]
    of a slot is the notation of a tuple of three integers. *)

Module Report.
Import Stdlib.Strings.String Stdlib.Strings.Ascii.
#[local] Open Scope string_scope.

Definition str_int (z : Z) : string :=
  DecimalString.NilZero.string_of_int (Z.to_int z).

Definition str_slot (sl : slot) : string :=
  "(" ++ str_int (slot_job sl) ++ ", " ++ str_int (slot_start sl) ++ ", "
      ++ str_int (slot_end sl) ++ ")".

(** The line feed that [print] writes at the end of a line. *)
Definition line_feed : ascii := "010"%char.

(** Line 140-141: [print(slot, end=" ")] for the slots of a machine. *)
Fixpoint print_slots (schedule_in_machine : list slot) : string :=
  match schedule_in_machine with
  | nil => ""
  | sl :: rest => str_slot sl ++ " " ++ print_slots rest
  end.

(** Lines 138-142: the machines of a factory, counted from [j]. *)
Fixpoint print_machines (j : nat) (schedule_in_factory : list (list slot))
    : string :=
  match schedule_in_factory with
  | nil => ""
  | schedule_in_machine :: rest =>
      "  machine " ++ str_int (Z.of_nat j) ++ ": "
        ++ print_slots schedule_in_machine ++ String line_feed ""
        ++ print_machines (S j) rest
  end.

(** Lines 136-142: the factories, counted from [i]. *)
Fixpoint print_factories (i : nat) (schedules : list (list (list slot)))
    : string :=
  match schedules with
  | nil => ""
  | schedule_in_factory :: rest =>
      "factory " ++ str_int (Z.of_nat i) ++ String line_feed ""
        ++ print_machines 0 schedule_in_factory
        ++ print_factories (S i) rest
  end.

Definition pretty_print (schedules : list (list (list slot))) : string :=
  print_factories 0 schedules.

(** The number of line feeds of a text. *)
Fixpoint line_feeds (s : string) : nat :=
  match s with
  | EmptyString => 0
  | String c s' =>
      if Ascii.eqb c line_feed then S (line_feeds s') else line_feeds s'
  end.

End Report.

(** * Specification vocabulary *)

(** ** Machine schedules

    A slot is well formed when it starts before it ends; a schedule is
    start-sorted when start times do not decrease along the list, and
    non-overlapping when any two slots at different positions are disjoint
    in time. *)

Definition slot_ok (sl : slot) : Prop := slot_start sl < slot_end sl.

Definition start_sorted (s : schedule) : Prop :=
  forall (i j : nat) (a b : slot),
    (i < j)%nat -> s !! i = Some a -> s !! j = Some b ->
    slot_start a <= slot_start b.

Definition non_overlapping (s : schedule) : Prop :=
  forall (i j : nat) (a b : slot),
    i <> j -> s !! i = Some a -> s !! j = Some b ->
    slot_end a <= slot_start b \/ slot_end b <= slot_start a.

Definition valid_schedule (s : schedule) : Prop :=
  Forall slot_ok s /\ start_sorted s /\ non_overlapping s.

(** The same, read along the list: every slot starts at or after the end
    of the slot before it ([lo] for the first one). *)
Fixpoint chained (lo : Z) (s : schedule) : Prop :=
  match s with
  | [] => True
  | sl :: rest =>
      lo <= slot_start sl /\ slot_start sl < slot_end sl
      /\ chained (slot_end sl) rest
  end.

(** The scan of [insert_operation_to_schedule] over a non-empty schedule,
    read recursively: [prev_end] is the end of the slot before the gap
    looked at (0 for the dummy slot). *)
Fixpoint place (time job ft prev_end : Z) (s : schedule) : schedule :=
  let start := Z.max ft prev_end in
  match s with
  | [] => [Slot job start (start + time)]
  | sl :: rest =>
      if (ft <? slot_start sl) && (time <=? slot_start sl - start)
      then Slot job start (start + time) :: sl :: rest
      else sl :: place time job ft (slot_end sl) rest
  end.

(** The end of the last slot of [s], [prev_end] when [s] is empty. *)
Definition last_end (prev_end : Z) (s : schedule) : Z :=
  match last s with
  | None => prev_end
  | Some sl => slot_end sl
  end.

(** ** Job tables *)

(** Every processing time of the table is positive (the unavailable
    sentinel is a large positive number). *)
Definition jobs_positive (jobs : list (list (list Z))) : Prop :=
  Forall (Forall (Forall (fun t => 0 < t))) jobs.

(** ** Machine selection *)

(** [best] is what the selection loop holds after the machines [0..k) of
    [operation]: nothing before the first machine, afterwards the trial
    of the lowest-indexed machine among those of least trial makespan. *)
Definition first_best (gene finish_time : Z) (machine_schedules : list schedule)
    (operation : list Z) (k : nat) (best : option (Z * nat * schedule))
    : Prop :=
  match best with
  | None => k = 0%nat
  | Some (best_makespan, m, s) =>
      (m < k)%nat
      /\ (exists t, operation !! m = Some t
            /\ try_machine gene finish_time machine_schedules m t
               = Ok (s, best_makespan))
      /\ forall (m' : nat) (t' : Z) (s' : schedule) (v : Z),
           (m' < k)%nat -> operation !! m' = Some t' ->
           try_machine gene finish_time machine_schedules m' t' = Ok (s', v) ->
           best_makespan <= v /\ ((m' < m)%nat -> best_makespan < v)
  end.

(** ** Counting *)

(** The number of committed slots of a global schedule (factory, machine,
    slot). *)
Definition total_slots (gs : list (list schedule)) : nat :=
  length (concat (concat gs)).

(** ** Trial makespan *)

(** The overall makespan of all machines' schedules with the trial
    schedule substituted for the schedule of [machine]. *)
Definition makespan_substituted (machine_schedules : list schedule)
    (machine : nat) (trial : schedule) : result Z :=
  makespan (<[machine := trial]> machine_schedules).

(** ** Precedence within a job *)

(** The genes that the factory-genome sends to factory [f], in the order
    of the operation-genome. *)
Fixpoint genes_of_factory (n_factories f : nat) (pairs : list (Z * Z))
    : list Z :=
  match pairs with
  | [] => []
  | (op, fac) :: rest =>
      match py_index n_factories fac with
      | Ok idx =>
          if (idx =? f)%nat
          then op :: genes_of_factory n_factories f rest
          else genes_of_factory n_factories f rest
      | Raise _ => genes_of_factory n_factories f rest
      end
  end.

(** [after] is [before] with one new slot of job [gene] in the schedule of
    one machine, and the new slot starts no earlier than the end of any
    slot of the job that [before] holds, on whatever machine. *)
Definition commits_after_job (before : list schedule) (gene : Z)
    (after : list schedule) : Prop :=
  exists (m : nat) (cur : schedule) (index : nat) (new_slot : slot),
    before !! m = Some cur
    /\ after = <[m := take index cur ++ new_slot :: drop index cur]> before
    /\ slot_job new_slot = gene
    /\ forall (s : schedule) (sl : slot),
         s ∈ before -> sl ∈ s -> slot_job sl = gene ->
         slot_end sl <= slot_start new_slot.

(** The slots of a job anywhere in a global schedule. *)
Definition slots_of_job (job : Z) (gs : list (list schedule)) : list slot :=
  filter (fun sl => slot_job sl = job) (concat (concat gs)).

(** Each slot of the list starts at or after the end of the one before. *)
Fixpoint consecutive_ok (l : list slot) : Prop :=
  match l with
  | a :: (b :: _) as rest => slot_end a <= slot_start b /\ consecutive_ok rest
  | _ => True
  end.

(** The slots of [job] can be put in an order in which each starts at or
    after the end of the one before. *)
Definition job_precedence (gs : list (list schedule)) (job : Z) : Prop :=
  exists l : list slot, l ≡ₚ slots_of_job job gs /\ consecutive_ok l.

(** ** Free time on a machine *)

(** An operation of length [time] started at [start] meets no slot of the
    schedule. *)
Definition fits (time start : Z) (s : schedule) : Prop :=
  Forall (fun sl => start + time <= slot_start sl \/ slot_end sl <= start) s.

(** ** Well-formed genomes *)

(** How often the genes of a genome address the job at position [idx] of
    a table of [n_jobs] jobs. *)
Fixpoint occurrences (n_jobs idx : nat) (genome : list Z) : nat :=
  match genome with
  | [] => 0
  | gene :: rest =>
      match py_index n_jobs gene with
      | Ok i =>
          if (i =? idx)%nat then S (occurrences n_jobs idx rest)
          else occurrences n_jobs idx rest
      | Raise _ => occurrences n_jobs idx rest
      end
  end.

(** Every operation of the table has a processing time for at least one
    machine and for no more than [n_machines] machines. *)
Definition jobs_fit_machines (jobs : list (list (list Z))) (n_machines : Z)
    : Prop :=
  Forall (Forall (fun operation : list Z =>
                    operation <> []
                    /\ (length operation <= Z.to_nat n_machines)%nat)) jobs.

(** The sum of the lengths of the slots of a schedule, and of all slots
    of a global schedule. *)
Definition duration (s : schedule) : Z :=
  foldr (fun sl acc => (slot_end sl - slot_start sl) + acc) 0 s.

Definition total_duration (gs : list (list schedule)) : Z :=
  duration (concat (concat gs)).

(** ** Slots of the job table *)

(** A slot on machine [m] carries a job of the genome, starts at or after
    time 0, and lasts as long as one operation of its job takes on
    machine [m]. *)
Definition slot_of_table (jobs : list (list (list Z))) (genome : list Z)
    (m : nat) (sl : slot) : Prop :=
  slot_job sl ∈ genome
  /\ 0 <= slot_start sl
  /\ exists (job : list (list Z)) (operation : list Z),
       getitem jobs (slot_job sl) = Ok job
       /\ operation ∈ job
       /\ operation !! m = Some (slot_end sl - slot_start sl).

(** * Properties *)

Lemma bind_Ok {A B : Type} (r : result A) (k : A -> result B) (b : B) :
  bind r k = Ok b -> exists a, r = Ok a /\ k a = Ok b.
Proof. destruct r as [a|e]; simpl; [eauto|discriminate]. Qed.

Ltac inv_bind H :=
  let a := fresh "a" in
  let Ha := fresh "Ha" in
  apply bind_Ok in H as (a & Ha & H).

(** ** makespan *)

Lemma foldl_max_ge (l : list Z) (x : Z) : x <= foldl Z.max x l.
Proof.
  revert x. induction l as [|y l IH]; intros x; simpl; [lia|].
  specialize (IH (Z.max x y)). lia.
Qed.

Lemma foldl_max_upper (l : list Z) (x y : Z) :
  y ∈ x :: l -> y <= foldl Z.max x l.
Proof.
  revert x. induction l as [|z l IH]; intros x Hy; simpl.
  - apply list_elem_of_singleton in Hy. lia.
  - pose proof (foldl_max_ge l (Z.max x z)) as Hge.
    apply elem_of_cons in Hy as [Heq|Hy]; [lia|].
    apply elem_of_cons in Hy as [Heq|Hy]; [lia|].
    apply IH. right. exact Hy.
Qed.

Lemma foldl_max_attained (l : list Z) (x : Z) : foldl Z.max x l ∈ x :: l.
Proof.
  revert x. induction l as [|z l IH]; intros x; simpl.
  - left.
  - specialize (IH (Z.max x z)).
    apply elem_of_cons in IH as [Heq|IH].
    + rewrite Heq. destruct (Z.max_spec x z) as [[_ ->]|[_ ->]].
      * right. left.
      * left.
    + right. right. exact IH.
Qed.

Lemma makespan_finish_times (schedules : list schedule) :
  makespan schedules = py_max (map finish_of schedules).
Proof.
  unfold makespan. f_equal. apply map_ext. intros [|sl s]; reflexivity.
Qed.

Lemma makespan_cons (s : schedule) (rest : list schedule) :
  makespan (s :: rest) = Ok (foldl Z.max (finish_of s) (map finish_of rest)).
Proof. rewrite makespan_finish_times. reflexivity. Qed.

(** C8 (as amended): on an empty collection [makespan] raises; on any other
    collection it returns a value that bounds the finish time of every
    schedule (the end of its last slot, 0 when empty), is the finish time
    of one of them, and is 0 when every schedule is empty. *)
Theorem makespan_is_max_finish (schedules : list schedule) :
  match schedules with
  | [] => makespan schedules = Raise ValueError
  | _ :: _ =>
      exists v, makespan schedules = Ok v
        /\ Forall (fun s => finish_of s <= v) schedules
        /\ Exists (fun s => finish_of s = v) schedules
        /\ (Forall (fun s => s = []) schedules -> v = 0)
  end.
Proof.
  destruct schedules as [|s rest]; [reflexivity|].
  eexists. split; [apply makespan_cons|].
  set (v := foldl Z.max (finish_of s) (map finish_of rest)).
  assert (Hup : Forall (fun s0 => finish_of s0 <= v) (s :: rest)).
  { apply Forall_forall. intros x Hx. apply foldl_max_upper.
    change (finish_of s :: map finish_of rest) with (map finish_of (s :: rest)).
    apply list_elem_of_fmap_2. exact Hx. }
  assert (Hat : Exists (fun s0 => finish_of s0 = v) (s :: rest)).
  { apply Exists_exists.
    pose proof (foldl_max_attained (map finish_of rest) (finish_of s)) as Hin.
    change (finish_of s :: map finish_of rest) with (map finish_of (s :: rest)) in Hin.
    apply list_elem_of_fmap in Hin as (x & Hx & Hin). exists x. split; [exact Hin|].
    symmetry. exact Hx. }
  split; [exact Hup|]. split; [exact Hat|].
  intros Hall. apply Exists_exists in Hat as (x & Hx & <-).
  rewrite Forall_forall in Hall. rewrite (Hall x Hx). reflexivity.
Qed.

(** C8 (as stated) fails on the empty collection: [max] of an empty list
    raises, so no 0 is returned. *)
Lemma makespan_empty_collection_raises :
  makespan [] = Raise ValueError /\ makespan [] <> Ok 0.
Proof. split; [reflexivity|discriminate]. Qed.

(** ** insert_operation_to_schedule *)

Lemma last_end_cons (prev_end : Z) (sl : slot) (s : schedule) :
  last_end prev_end (sl :: s) = last_end (slot_end sl) s.
Proof. unfold last_end. rewrite last_cons. destruct (last s); reflexivity. Qed.

Lemma finish_of_last_end (s : schedule) : finish_of s = last_end 0 s.
Proof. reflexivity. Qed.

Lemma find_idle_place (time job ft : Z) (s pre : schedule) (prev_end : Z) :
  match find_idle time ft (length pre) (zip (prev_end :: map slot_end s) s) with
  | Some (index, start) =>
      take index (pre ++ s) ++ [Slot job start (start + time)]
        ++ drop index (pre ++ s)
  | None =>
      let start := Z.max ft (last_end prev_end s) in
      (pre ++ s) ++ [Slot job start (start + time)]
  end = pre ++ place time job ft prev_end s.
Proof.
  revert pre prev_end. induction s as [|sl s IH]; intros pre prev_end.
  - simpl. rewrite app_nil_r. reflexivity.
  - simpl zip. cbn [find_idle place].
    destruct ((ft <? slot_start sl)
              && (time <=? slot_start sl - Z.max ft prev_end)).
    + rewrite take_app_length, drop_app_length. reflexivity.
    + specialize (IH (pre ++ [sl]) (slot_end sl)).
      rewrite length_app in IH. simpl in IH.
      replace (length pre + 1)%nat with (S (length pre)) in IH by lia.
      rewrite last_end_cons.
      rewrite <- !(assoc_L (++) pre [sl]) in IH. simpl in IH. exact IH.
Qed.

Lemma insert_place (time job ft : Z) (sl : slot) (s : schedule) :
  insert_operation_to_schedule time job ft (sl :: s)
  = place time job ft 0 (sl :: s).
Proof.
  pose proof (find_idle_place time job ft (sl :: s) [] 0) as H.
  simpl length in H. rewrite !app_nil_l in H.
  unfold insert_operation_to_schedule. exact H.
Qed.

(** The new schedule is the old one with one slot of the operation put in
    at some index; the slot starts no earlier than the finish time of the
    job's previous operation. *)
Lemma place_shape (time job ft prev_end : Z) (s : schedule) :
  exists (index : nat) (start : Z),
    place time job ft prev_end s
    = take index s ++ Slot job start (start + time) :: drop index s
    /\ ft <= start.
Proof.
  revert prev_end. induction s as [|sl s IH]; intros prev_end.
  - exists 0%nat, (Z.max ft prev_end). split; [reflexivity|lia].
  - cbn [place].
    destruct ((ft <? slot_start sl)
              && (time <=? slot_start sl - Z.max ft prev_end)).
    + exists 0%nat, (Z.max ft prev_end). split; [reflexivity|lia].
    + destruct (IH (slot_end sl)) as (index & start & -> & Hle).
      exists (S index), start. split; [reflexivity|exact Hle].
Qed.

Lemma insert_shape (time job ft : Z) (s : schedule) :
  exists (index : nat) (start : Z),
    insert_operation_to_schedule time job ft s
    = take index s ++ Slot job start (start + time) :: drop index s
    /\ ft <= start.
Proof.
  destruct s as [|sl s].
  - exists 0%nat, ft. split; [reflexivity|lia].
  - rewrite insert_place. apply place_shape.
Qed.

Lemma insert_length (time job ft : Z) (s : schedule) :
  length (insert_operation_to_schedule time job ft s) = S (length s).
Proof.
  destruct (insert_shape time job ft s) as (index & start & -> & _).
  rewrite length_app, length_cons, Nat.add_succ_r.
  rewrite <- length_app, take_drop. reflexivity.
Qed.

Lemma insert_perm (time job ft : Z) (s : schedule) :
  exists start : Z,
    insert_operation_to_schedule time job ft s
      ≡ₚ Slot job start (start + time) :: s
    /\ ft <= start.
Proof.
  destruct (insert_shape time job ft s) as (index & start & -> & Hle).
  exists start. split; [|exact Hle].
  rewrite <- Permutation_middle. rewrite take_drop. reflexivity.
Qed.

(** *** Validity is kept *)

Lemma chained_weaken (lo lo' : Z) (s : schedule) :
  lo' <= lo -> chained lo s -> chained lo' s.
Proof.
  destruct s as [|sl s]; simpl; [tauto|].
  intros ? (? & ? & ?). repeat split; [lia|lia|assumption].
Qed.

Lemma place_chained (time job ft prev_end : Z) (s : schedule) :
  0 < time -> chained prev_end s ->
  chained prev_end (place time job ft prev_end s).
Proof.
  intros Ht. revert prev_end. induction s as [|sl s IH]; intros prev_end Hc.
  - simpl. lia.
  - cbn [place]. destruct Hc as (Hlo & Hok & Hc).
    destruct ((ft <? slot_start sl)
              && (time <=? slot_start sl - Z.max ft prev_end)) eqn:Hfit.
    + apply andb_true_iff in Hfit as [_ Hfit]. apply Z.leb_le in Hfit.
      simpl. repeat split; try lia. exact Hc.
    + simpl. repeat split; [lia|lia|]. apply IH. exact Hc.
Qed.

Lemma place_chained_top (time job ft lo prev_end : Z) (s : schedule) :
  0 < time -> chained lo s ->
  chained (Z.min lo (Z.max ft prev_end)) (place time job ft prev_end s).
Proof.
  intros Ht Hc. destruct s as [|sl s].
  - simpl. lia.
  - cbn [place]. destruct Hc as (Hlo & Hok & Hc).
    destruct ((ft <? slot_start sl)
              && (time <=? slot_start sl - Z.max ft prev_end)) eqn:Hfit.
    + apply andb_true_iff in Hfit as [_ Hfit]. apply Z.leb_le in Hfit.
      simpl. repeat split; try lia. exact Hc.
    + simpl. repeat split; [lia|lia|]. apply place_chained; assumption.
Qed.

Lemma insert_chained (time job ft lo : Z) (s : schedule) :
  0 < time -> chained lo s ->
  exists lo', chained lo' (insert_operation_to_schedule time job ft s).
Proof.
  intros Ht Hc. destruct s as [|sl s].
  - exists ft. simpl. lia.
  - rewrite insert_place. eexists. apply place_chained_top; eassumption.
Qed.

Lemma chained_lookup (lo : Z) (s : schedule) (i : nat) (a : slot) :
  chained lo s -> s !! i = Some a ->
  lo <= slot_start a /\ slot_start a < slot_end a.
Proof.
  revert lo i. induction s as [|sl s IH]; intros lo i Hc Hi; [discriminate|].
  destruct Hc as (Hlo & Hok & Hc). destruct i as [|i]; simpl in Hi.
  - injection Hi as <-. lia.
  - destruct (IH _ _ Hc Hi). lia.
Qed.

Lemma chained_lookup_lt (lo : Z) (s : schedule) (i j : nat) (a b : slot) :
  chained lo s -> (i < j)%nat -> s !! i = Some a -> s !! j = Some b ->
  slot_end a <= slot_start b.
Proof.
  revert lo i j. induction s as [|sl s IH]; intros lo i j Hc Hij Hi Hj;
    [discriminate|].
  destruct Hc as (Hlo & Hok & Hc).
  destruct j as [|j]; [lia|]. simpl in Hj. destruct i as [|i]; simpl in Hi.
  - injection Hi as <-. destruct (chained_lookup _ _ _ _ Hc Hj). lia.
  - apply (IH (slot_end sl) i j); [assumption|lia|assumption|assumption].
Qed.

Lemma chained_valid (lo : Z) (s : schedule) : chained lo s -> valid_schedule s.
Proof.
  intros Hc. split; [|split].
  - apply Forall_lookup. intros i a Hi.
    destruct (chained_lookup _ _ _ _ Hc Hi). assumption.
  - intros i j a b Hij Hi Hj.
    pose proof (chained_lookup_lt _ _ _ _ _ _ Hc Hij Hi Hj).
    destruct (chained_lookup _ _ _ _ Hc Hi). lia.
  - intros i j a b Hij Hi Hj.
    destruct (Nat.lt_total i j) as [Hlt|[Heq|Hlt]]; [|contradiction|].
    + left. exact (chained_lookup_lt _ _ _ _ _ _ Hc Hlt Hi Hj).
    + right. exact (chained_lookup_lt _ _ _ _ _ _ Hc Hlt Hj Hi).
Qed.

Lemma valid_schedule_tail (sl : slot) (s : schedule) :
  valid_schedule (sl :: s) -> valid_schedule s.
Proof.
  intros (Hok & Hs & Hn). split; [|split].
  - eapply Forall_inv_tail. exact Hok.
  - intros i j a b Hij Hi Hj. apply (Hs (S i) (S j)); [lia|assumption|assumption].
  - intros i j a b Hij Hi Hj. apply (Hn (S i) (S j)); [lia|assumption|assumption].
Qed.

Lemma valid_chained (s : schedule) :
  valid_schedule s -> exists lo, chained lo s.
Proof.
  induction s as [|sl s IH]; intros Hv; [exists 0; exact I|].
  destruct (IH (valid_schedule_tail _ _ Hv)) as [lo Hc].
  exists (slot_start sl). destruct Hv as (Hok & Hs & Hn).
  pose proof (Forall_inv Hok) as Hsl. unfold slot_ok in Hsl.
  simpl. repeat split; [lia|exact Hsl|].
  destruct s as [|b s]; [exact I|].
  destruct Hc as (_ & Hb & Hc). simpl. repeat split; [|exact Hb|exact Hc].
  pose proof (Hs 0%nat 1%nat sl b ltac:(lia) eq_refl eq_refl).
  destruct (Hn 0%nat 1%nat sl b ltac:(lia) eq_refl eq_refl); lia.
Qed.

Lemma insert_valid (time job ft : Z) (s : schedule) :
  0 < time -> valid_schedule s ->
  valid_schedule (insert_operation_to_schedule time job ft s).
Proof.
  intros Ht Hv. destruct (valid_chained s Hv) as [lo Hc].
  destruct (insert_chained time job ft lo s Ht Hc) as [lo' Hc'].
  exact (chained_valid lo' _ Hc').
Qed.

(** ** Machine selection *)

Lemma try_machine_Ok (gene ft : Z) (ms : list schedule) (m : nat) (t : Z)
    (s : schedule) (v : Z) :
  try_machine gene ft ms m t = Ok (s, v) ->
  exists cur, ms !! m = Some cur
    /\ s = insert_operation_to_schedule t gene ft cur
    /\ makespan (s :: ms) = Ok v.
Proof.
  unfold try_machine. destruct (ms !! m) as [cur|]; [|discriminate].
  rewrite makespan_cons. simpl. intros [= <- <-].
  exists cur. rewrite makespan_cons. auto.
Qed.

Lemma try_machine_lookup (gene ft : Z) (ms : list schedule) (m : nat) (t : Z)
    (cur : schedule) :
  ms !! m = Some cur ->
  exists v,
    try_machine gene ft ms m t
    = Ok (insert_operation_to_schedule t gene ft cur, v).
Proof.
  intros Hm. unfold try_machine. rewrite Hm, makespan_cons. simpl. eauto.
Qed.

Lemma select_machine_first_best (gene ft : Z) (ms : list schedule)
    (operation todo : list Z) (k : nat) (best res : option (Z * nat * schedule)) :
  drop k operation = todo ->
  first_best gene ft ms operation k best ->
  select_machine gene ft ms k todo best = Ok res ->
  first_best gene ft ms operation (length operation) res.
Proof.
  revert k best. induction todo as [|t rest IH]; intros k best Hdrop Hinv Hsel.
  - simpl in Hsel. injection Hsel as <-.
    apply drop_nil_inv in Hdrop.
    destruct best as [[[bm m] s]|]; simpl in *.
    + destruct Hinv as (Hm & (t & Ht & Htry) & Hall).
      split; [apply lookup_lt_Some in Ht; exact Ht|].
      split; [eauto|]. intros m' t' s' v Hm' Ht'. apply Hall; [lia|exact Ht'].
    + lia.
  - assert (Hk : operation !! k = Some t).
    { rewrite <- (Nat.add_0_r k), <- lookup_drop, Hdrop. reflexivity. }
    assert (Hdrop' : drop (S k) operation = rest).
    { rewrite <- (Nat.add_1_l k), Nat.add_comm, <- drop_drop, Hdrop.
      reflexivity. }
    cbn [select_machine] in Hsel. inv_bind Hsel. destruct a as [sched tmp].
    apply (IH (S k) _ Hdrop') in Hsel; [exact Hsel|].
    destruct best as [[[bm m] s]|]; simpl in Hinv.
    + destruct Hinv as (Hm & (tm & Ht & Htry) & Hall).
      destruct (tmp <? bm) eqn:Hlt.
      * apply Z.ltb_lt in Hlt. simpl. split; [lia|]. split; [eauto|].
        intros m' t' s' v Hm' Ht' Htry'.
        destruct (decide (m' = k)) as [->|Hne].
        -- rewrite Hk in Ht'. injection Ht' as <-.
           rewrite Ha in Htry'. injection Htry' as <- <-. lia.
        -- destruct (Hall m' t' s' v ltac:(lia) Ht' Htry'). lia.
      * apply Z.ltb_ge in Hlt. simpl. split; [lia|]. split; [eauto|].
        intros m' t' s' v Hm' Ht' Htry'.
        destruct (decide (m' = k)) as [->|Hne].
        -- rewrite Hk in Ht'. injection Ht' as <-.
           rewrite Ha in Htry'. injection Htry' as <- <-. lia.
        -- apply (Hall m' t' s' v); [lia|assumption|assumption].
    + subst k. simpl. split; [lia|]. split; [eauto|].
      intros m' t' s' v Hm' Ht' Htry'. assert (m' = 0%nat) as -> by lia.
      rewrite Hk in Ht'. injection Ht' as <-.
      rewrite Ha in Htry'. injection Htry' as <- <-. lia.
Qed.

Lemma select_machine_spec (gene ft : Z) (ms : list schedule)
    (operation : list Z) (res : option (Z * nat * schedule)) :
  select_machine gene ft ms 0 operation None = Ok res ->
  first_best gene ft ms operation (length operation) res.
Proof.
  apply (select_machine_first_best gene ft ms operation operation 0 None).
  - apply drop_0.
  - reflexivity.
Qed.

(** The loop raises nothing when every machine of the operation has a
    schedule. *)
Lemma select_machine_total (gene ft : Z) (ms : list schedule)
    (todo : list Z) (k : nat) (best : option (Z * nat * schedule)) :
  (k + length todo <= length ms)%nat ->
  exists res, select_machine gene ft ms k todo best = Ok res
    /\ (todo <> [] \/ is_Some best -> is_Some res).
Proof.
  revert k best. induction todo as [|t rest IH]; intros k best Hlen.
  - exists best. split; [reflexivity|]. intros [Hne|Hb]; [congruence|exact Hb].
  - simpl in Hlen. cbn [select_machine].
    destruct (lookup_lt_is_Some_2 ms k ltac:(lia)) as [cur Hcur].
    destruct (try_machine_lookup gene ft ms k t cur Hcur) as [v ->]. simpl.
    match goal with |- context [select_machine _ _ _ _ _ ?b] =>
      destruct (IH (S k) b ltac:(lia)) as (res & -> & Hres) end.
    exists res. split; [reflexivity|]. intros _. apply Hres. right.
    destruct best as [[[bm m] s]|]; [destruct (v <? bm)|]; eauto.
Qed.

(** ** One gene *)

Lemma py_index_Ok (len : nat) (i : Z) (idx : nat) :
  py_index len i = Ok idx -> (idx < len)%nat.
Proof.
  unfold py_index.
  destruct ((0 <=? i) && (i <? Z.of_nat len)) eqn:H1.
  - intros [= <-]. apply andb_true_iff in H1 as [H0 H1].
    apply Z.leb_le in H0. apply Z.ltb_lt in H1. lia.
  - destruct ((- Z.of_nat len <=? i) && (i <? 0)) eqn:H2; [|discriminate].
    intros [= <-]. apply andb_true_iff in H2 as [H0 H2].
    apply Z.leb_le in H0. apply Z.ltb_lt in H2. lia.
Qed.

Lemma getitem_Ok {A : Type} (l : list A) (i : Z) (x : A) :
  getitem l i = Ok x ->
  exists idx, py_index (length l) i = Ok idx /\ l !! idx = Some x.
Proof.
  unfold getitem. intros H. inv_bind H. exists a. split; [exact Ha|].
  destruct (l !! a); [injection H as <-; reflexivity|discriminate].
Qed.

Lemma getitem_elem_of {A : Type} (l : list A) (i : Z) (x : A) :
  getitem l i = Ok x -> x ∈ l.
Proof.
  intros H. apply getitem_Ok in H as (idx & _ & H).
  eapply list_elem_of_lookup_2. exact H.
Qed.

Lemma next_operation_elem_of (jobs : list (list (list Z)))
    (operation_counter : list nat) (gene : Z) (operation : list Z) :
  next_operation jobs operation_counter gene = Ok operation ->
  exists job, job ∈ jobs /\ operation ∈ job.
Proof.
  unfold next_operation. intros H. inv_bind H. inv_bind H.
  exists a. split; [eapply getitem_elem_of; exact Ha|].
  destruct (a !! a0) as [op|] eqn:Hop; [|discriminate].
  injection H as <-. eapply list_elem_of_lookup_2. exact Hop.
Qed.

Lemma schedule_gene_Ok (jobs : list (list (list Z)))
    (cnt cnt' : list nat) (ms ms' : list schedule) (gene : Z) :
  schedule_gene jobs (cnt, ms) gene = Ok (cnt', ms') ->
  exists (operation : list Z) (bm : Z) (m : nat) (s : schedule),
    next_operation jobs cnt gene = Ok operation
    /\ select_machine gene (finish_time_of_last_operation gene ms) ms 0
         operation None = Ok (Some (bm, m, s))
    /\ ms' = <[m := s]> ms
    /\ increment_counter cnt gene = Ok cnt'.
Proof.
  unfold schedule_gene. intros H. inv_bind H. inv_bind H.
  destruct a0 as [[[bm m] s]|]; [|discriminate].
  inv_bind H. injection H as <- <-.
  exists a, bm, m, s. auto.
Qed.

(** A gene that is scheduled puts one slot of its operation on one
    machine: the machine's schedule becomes the result of the insertion,
    the others stay. *)
Lemma schedule_gene_commit (jobs : list (list (list Z)))
    (cnt cnt' : list nat) (ms ms' : list schedule) (gene : Z) :
  schedule_gene jobs (cnt, ms) gene = Ok (cnt', ms') ->
  exists (operation : list Z) (m : nat) (t : Z) (cur : schedule),
    next_operation jobs cnt gene = Ok operation
    /\ operation !! m = Some t
    /\ ms !! m = Some cur
    /\ ms' = <[m := insert_operation_to_schedule t gene
                     (finish_time_of_last_operation gene ms) cur]> ms.
Proof.
  intros H. apply schedule_gene_Ok in H as (op & bm & m & s & Hop & Hsel & -> & _).
  apply select_machine_spec in Hsel. simpl in Hsel.
  destruct Hsel as (_ & (t & Ht & Htry) & _).
  apply try_machine_Ok in Htry as (cur & Hcur & -> & _).
  exists op, m, t, cur. auto.
Qed.

Lemma schedule_genes_invariant (jobs : list (list (list Z)))
    (P : list schedule -> Prop) :
  (forall cnt ms gene cnt' ms',
      P ms -> schedule_gene jobs (cnt, ms) gene = Ok (cnt', ms') -> P ms') ->
  forall (genome : list Z) (st st' : decoder_state),
    P (snd st) -> schedule_genes jobs st genome = Ok st' -> P (snd st').
Proof.
  intros Hstep genome. induction genome as [|gene rest IH]; intros st st' HP Hrun.
  - injection Hrun as <-. exact HP.
  - simpl in Hrun. inv_bind Hrun. apply (IH a st'); [|exact Hrun].
    destruct st as [cnt ms], a as [cnt1 ms1]. eapply Hstep; [exact HP|exact Ha].
Qed.

Lemma schedule_genes_app (jobs : list (list (list Z))) (st : decoder_state)
    (g1 g2 : list Z) :
  schedule_genes jobs st (g1 ++ g2)
  = (st' <- schedule_genes jobs st g1 ;; schedule_genes jobs st' g2).
Proof.
  revert st. induction g1 as [|gene g1 IH]; intros st; [reflexivity|].
  simpl. destruct (schedule_gene jobs st gene) as [st1|e]; simpl; [apply IH|reflexivity].
Qed.

(** ** Valid schedules are kept by decoding *)

Lemma schedule_gene_valid (jobs : list (list (list Z)))
    (cnt cnt' : list nat) (ms ms' : list schedule) (gene : Z) :
  jobs_positive jobs ->
  Forall valid_schedule ms ->
  schedule_gene jobs (cnt, ms) gene = Ok (cnt', ms') ->
  Forall valid_schedule ms'.
Proof.
  intros Hpos Hv H.
  apply schedule_gene_commit in H as (op & m & t & cur & Hop & Ht & Hcur & ->).
  apply next_operation_elem_of in Hop as (job & Hjob & Hop).
  unfold jobs_positive in Hpos. rewrite Forall_forall in Hpos.
  specialize (Hpos job Hjob). rewrite Forall_forall in Hpos.
  specialize (Hpos op Hop). rewrite Forall_lookup in Hpos.
  specialize (Hpos m t Ht). simpl in Hpos.
  apply Forall_insert; [exact Hv|]. apply insert_valid; [exact Hpos|].
  rewrite Forall_lookup in Hv. exact (Hv m cur Hcur).
Qed.

Lemma valid_schedule_nil : valid_schedule [].
Proof. apply (chained_valid 0). exact I. Qed.

Lemma single_factory_valid (genome : list Z) (jobs : list (list (list Z)))
    (n_machines : Z) (fs : list schedule) :
  jobs_positive jobs ->
  schedule_in_single_factory genome jobs n_machines = Ok fs ->
  Forall valid_schedule fs.
Proof.
  intros Hpos H. unfold schedule_in_single_factory in H. inv_bind H.
  injection H as <-.
  refine (schedule_genes_invariant jobs (Forall valid_schedule) _
            genome _ a _ Ha).
  - intros cnt ms gene cnt' ms'. apply schedule_gene_valid. exact Hpos.
  - simpl. apply Forall_replicate. exact valid_schedule_nil.
Qed.

(** ** Several factories *)

Lemma decode_factories_Forall2 (subgenomes : list (list Z))
    (jobs : list (list (list Z))) (n_machines : Z) (gs : list (list schedule)) :
  decode_factories subgenomes jobs n_machines = Ok gs ->
  Forall2 (fun sg fs => schedule_in_single_factory sg jobs n_machines = Ok fs)
    subgenomes gs.
Proof.
  revert gs. induction subgenomes as [|sg rest IH]; intros gs H.
  - injection H as <-. constructor.
  - simpl in H. inv_bind H. inv_bind H. injection H as <-.
    constructor; [exact Ha|]. apply IH. exact Ha0.
Qed.

Lemma multiple_factory_Ok (og fg : list Z) (jobs : list (list (list Z)))
    (n_machines n_factories : Z) (mk : Z) (gs : list (list schedule)) :
  schedule_in_multiple_factory og fg jobs n_machines n_factories = Ok (mk, gs) ->
  exists subgenomes,
    distribute (replicate (Z.to_nat n_factories) []) (zip og fg) = Ok subgenomes
    /\ Forall2 (fun sg fs => schedule_in_single_factory sg jobs n_machines = Ok fs)
         subgenomes gs
    /\ makespan (concat gs) = Ok mk.
Proof.
  unfold schedule_in_multiple_factory. intros H. inv_bind H. inv_bind H.
  inv_bind H. injection H as <- <-.
  exists a. split; [exact Ha|]. split; [|exact Ha1].
  apply decode_factories_Forall2. exact Ha0.
Qed.

Lemma multiple_factory_valid (og fg : list Z) (jobs : list (list (list Z)))
    (n_machines n_factories : Z) (mk : Z) (gs : list (list schedule)) :
  jobs_positive jobs ->
  schedule_in_multiple_factory og fg jobs n_machines n_factories = Ok (mk, gs) ->
  Forall (Forall valid_schedule) gs.
Proof.
  intros Hpos H. apply multiple_factory_Ok in H as (sgs & _ & Hall & _).
  induction Hall as [|sg fs sgs gs Hsg _ IH]; constructor; [|exact IH].
  eapply single_factory_valid; eassumption.
Qed.

(** C4: inserting an operation of positive processing time, with an
    earliest start that is not negative, into a valid (well-formed slots,
    start-sorted, non-overlapping) machine schedule gives a valid schedule
    with exactly one more slot; hence, on a job table of positive
    processing times, every machine schedule that the single-factory
    decoder or the multi-factory orchestrator returns is valid, so no two
    of its slots overlap. *)
Theorem insertion_keeps_schedules_valid :
  (forall (time job ft : Z) (s : schedule),
      valid_schedule s -> 0 < time -> 0 <= ft ->
      valid_schedule (insert_operation_to_schedule time job ft s)
      /\ length (insert_operation_to_schedule time job ft s) = S (length s))
  /\ (forall (genome : list Z) (jobs : list (list (list Z))) (n_machines : Z)
        (fs : list schedule),
        jobs_positive jobs ->
        schedule_in_single_factory genome jobs n_machines = Ok fs ->
        Forall valid_schedule fs)
  /\ (forall (og fg : list Z) (jobs : list (list (list Z)))
        (n_machines n_factories : Z) (mk : Z) (gs : list (list schedule)),
        jobs_positive jobs ->
        schedule_in_multiple_factory og fg jobs n_machines n_factories
        = Ok (mk, gs) ->
        Forall (Forall valid_schedule) gs).
Proof.
  split; [|split].
  - intros time job ft s Hv Ht _. split.
    + apply insert_valid; assumption.
    + apply insert_length.
  - apply single_factory_valid.
  - apply multiple_factory_valid.
Qed.

Lemma example_jobs_positive : jobs_positive example_jobs.
Proof.
  unfold jobs_positive, example_jobs, INF.
  repeat (apply Forall_cons; split); try apply Forall_nil; reflexivity.
Defined.

Lemma documented_schedule_valid :
  valid_schedule [Slot 1 1 3; Slot 2 6 9; Slot 1 20 22].
Proof. apply (chained_valid 0). simpl. lia. Defined.

(** C4 at the example of the docstring of [insert_operation_to_schedule]
    and at the reference scenario. *)
Lemma insertion_keeps_schedules_valid_witness :
  (valid_schedule
     (insert_operation_to_schedule 7 3 0 [Slot 1 1 3; Slot 2 6 9; Slot 1 20 22])
   /\ insert_operation_to_schedule 7 3 0 [Slot 1 1 3; Slot 2 6 9; Slot 1 20 22]
      = [Slot 1 1 3; Slot 2 6 9; Slot 3 9 16; Slot 1 20 22])
  /\ exists mk gs,
       schedule_in_multiple_factory example_operation_genome
         example_factory_genome example_jobs 3 2 = Ok (mk, gs)
       /\ Forall (Forall valid_schedule) gs.
Proof.
  destruct insertion_keeps_schedules_valid as (Hins & _ & Hmulti).
  split.
  - split; [|reflexivity].
    apply (Hins 7 3 0); [exact documented_schedule_valid|lia|lia].
  - eexists. eexists. split; [vm_compute; reflexivity|].
    eapply (Hmulti example_operation_genome example_factory_genome
              example_jobs 3 2); [exact example_jobs_positive|].
    vm_compute. reflexivity.
Defined.

(** ** One slot per gene *)

Lemma concat_insert_length {A : Type} (ls : list (list A)) (i : nat)
    (cur new : list A) :
  ls !! i = Some cur ->
  (length (concat (<[i := new]> ls)) + length cur
   = length (concat ls) + length new)%nat.
Proof.
  revert i. induction ls as [|l ls IH]; intros i Hi; [discriminate|].
  destruct i as [|i]; simpl in *.
  - injection Hi as ->. rewrite !length_app. lia.
  - specialize (IH i Hi). rewrite !length_app. lia.
Qed.

Lemma schedule_gene_count (jobs : list (list (list Z)))
    (cnt cnt' : list nat) (ms ms' : list schedule) (gene : Z) :
  schedule_gene jobs (cnt, ms) gene = Ok (cnt', ms') ->
  length (concat ms') = S (length (concat ms)).
Proof.
  intros H.
  apply schedule_gene_commit in H as (op & m & t & cur & _ & _ & Hcur & ->).
  pose proof (concat_insert_length ms m cur
                (insert_operation_to_schedule t gene
                   (finish_time_of_last_operation gene ms) cur) Hcur) as Hlen.
  rewrite insert_length in Hlen. lia.
Qed.

Lemma schedule_genes_count (jobs : list (list (list Z))) (genome : list Z)
    (st st' : decoder_state) :
  schedule_genes jobs st genome = Ok st' ->
  length (concat (snd st')) = (length (concat (snd st)) + length genome)%nat.
Proof.
  revert st. induction genome as [|gene rest IH]; intros st H.
  - injection H as <-. simpl. lia.
  - simpl in H. inv_bind H. rewrite (IH a H).
    destruct st as [cnt ms], a as [cnt1 ms1].
    apply schedule_gene_count in Ha. simpl in *. lia.
Qed.

Lemma concat_replicate_nil {A : Type} (n : nat) :
  concat (replicate n ([] : list A)) = [].
Proof. induction n as [|n IH]; [reflexivity|exact IH]. Qed.

Lemma single_factory_count (genome : list Z) (jobs : list (list (list Z)))
    (n_machines : Z) (fs : list schedule) :
  schedule_in_single_factory genome jobs n_machines = Ok fs ->
  length (concat fs) = length genome.
Proof.
  unfold schedule_in_single_factory. intros H. inv_bind H. injection H as <-.
  apply schedule_genes_count in Ha. rewrite Ha. simpl.
  rewrite concat_replicate_nil. reflexivity.
Qed.

Lemma distribute_count (subgenomes subgenomes' : list (list Z))
    (pairs : list (Z * Z)) :
  distribute subgenomes pairs = Ok subgenomes' ->
  length (concat subgenomes')
  = (length (concat subgenomes) + length pairs)%nat.
Proof.
  revert subgenomes. induction pairs as [|[op fac] rest IH]; intros sgs H.
  - injection H as <-. simpl. lia.
  - simpl in H. inv_bind H.
    destruct (sgs !! a) as [sg|] eqn:Hsg; [|discriminate].
    rewrite (IH _ H).
    pose proof (concat_insert_length sgs a sg (sg ++ [op]) Hsg) as Hlen.
    rewrite length_app in Hlen. simpl in *. lia.
Qed.

Lemma decode_factories_count (subgenomes : list (list Z))
    (jobs : list (list (list Z))) (n_machines : Z) (gs : list (list schedule)) :
  Forall2 (fun sg fs => schedule_in_single_factory sg jobs n_machines = Ok fs)
    subgenomes gs ->
  total_slots gs = length (concat subgenomes).
Proof.
  unfold total_slots. induction 1 as [|sg fs sgs gs Hsg _ IH]; [reflexivity|].
  simpl. rewrite concat_app, !length_app, IH.
  rewrite (single_factory_count _ _ _ _ Hsg). reflexivity.
Qed.

Lemma multiple_factory_count (og fg : list Z) (jobs : list (list (list Z)))
    (n_machines n_factories : Z) (mk : Z) (gs : list (list schedule)) :
  schedule_in_multiple_factory og fg jobs n_machines n_factories = Ok (mk, gs) ->
  total_slots gs = length (zip og fg).
Proof.
  intros H. apply multiple_factory_Ok in H as (sgs & Hd & Hall & _).
  rewrite (decode_factories_count _ _ _ _ Hall).
  rewrite (distribute_count _ _ _ Hd), concat_replicate_nil. reflexivity.
Qed.

(** C5: when the two genomes have the same length and the orchestrator
    returns a result, the number of slots in the global schedule, over all
    factories and machines, is the length of the operation-genome. *)
Theorem one_slot_per_gene (og fg : list Z) (jobs : list (list (list Z)))
    (n_machines n_factories : Z) (mk : Z) (gs : list (list schedule)) :
  length og = length fg ->
  schedule_in_multiple_factory og fg jobs n_machines n_factories = Ok (mk, gs) ->
  total_slots gs = length og.
Proof.
  intros Hlen H. rewrite (multiple_factory_count _ _ _ _ _ _ _ H).
  rewrite length_zip_with. lia.
Qed.

(** C5 at the reference scenario: eight genes, eight slots. *)
Lemma one_slot_per_gene_witness :
  exists mk gs,
    schedule_in_multiple_factory example_operation_genome
      example_factory_genome example_jobs 3 2 = Ok (mk, gs)
    /\ total_slots gs = 8%nat.
Proof.
  eexists. eexists. split; [vm_compute; reflexivity|].
  apply (one_slot_per_gene example_operation_genome example_factory_genome
           example_jobs 3 2 26); [reflexivity|].
  vm_compute. reflexivity.
Defined.

(** C6: a gene that is scheduled commits the trial of a machine [m] of its
    operation whose trial makespan is least among all machines of the
    operation and strictly less than that of every machine of lower index;
    so among machines of equal least trial makespan the lowest index is
    committed, and a later machine that only equals the best does not
    replace it. *)
Theorem lowest_index_wins_ties (jobs : list (list (list Z)))
    (cnt cnt' : list nat) (ms ms' : list schedule) (gene : Z) :
  schedule_gene jobs (cnt, ms) gene = Ok (cnt', ms') ->
  exists (operation : list Z) (m : nat) (t : Z) (s : schedule)
         (best_makespan : Z),
    next_operation jobs cnt gene = Ok operation
    /\ operation !! m = Some t
    /\ try_machine gene (finish_time_of_last_operation gene ms) ms m t
       = Ok (s, best_makespan)
    /\ ms' = <[m := s]> ms
    /\ forall (m' : nat) (t' : Z) (s' : schedule) (v : Z),
         operation !! m' = Some t' ->
         try_machine gene (finish_time_of_last_operation gene ms) ms m' t'
         = Ok (s', v) ->
         best_makespan <= v /\ ((m' < m)%nat -> best_makespan < v).
Proof.
  intros H.
  apply schedule_gene_Ok in H as (op & bm & m & s & Hop & Hsel & -> & _).
  apply select_machine_spec in Hsel. simpl in Hsel.
  destruct Hsel as (_ & (t & Ht & Htry) & Hall).
  exists op, m, t, s, bm. repeat split; try assumption.
  - eapply (Hall m' t' s' v); [|eassumption|eassumption].
    eapply lookup_lt_Some. eassumption.
  - eapply (Hall m' t' s' v); [|eassumption|eassumption].
    eapply lookup_lt_Some. eassumption.
Qed.

(** C6 in the reference scenario: after the two operations of job 2 in
    factory 0, the first operation of job 1 has trial makespan 19 on each
    of the three machines, and machine 0 is committed. *)
Lemma lowest_index_wins_ties_witness :
  schedule_gene example_jobs
    ([0; 0; 2]%nat, [[]; [Slot 2 9 19]; [Slot 2 0 9]]) 1
  = Ok ([0; 1; 2]%nat, [[Slot 1 0 7]; [Slot 2 9 19]; [Slot 2 0 9]])
  /\ exists (operation : list Z) (m : nat) (t : Z) (s : schedule)
            (best_makespan : Z),
       next_operation example_jobs [0; 0; 2]%nat 1 = Ok operation
       /\ operation !! m = Some t
       /\ try_machine 1
            (finish_time_of_last_operation 1 [[]; [Slot 2 9 19]; [Slot 2 0 9]])
            [[]; [Slot 2 9 19]; [Slot 2 0 9]] m t
          = Ok (s, best_makespan)
       /\ [[Slot 1 0 7]; [Slot 2 9 19]; [Slot 2 0 9]]
          = <[m := s]> [[]; [Slot 2 9 19]; [Slot 2 0 9]]
       /\ forall (m' : nat) (t' : Z) (s' : schedule) (v : Z),
            operation !! m' = Some t' ->
            try_machine 1
              (finish_time_of_last_operation 1
                 [[]; [Slot 2 9 19]; [Slot 2 0 9]])
              [[]; [Slot 2 9 19]; [Slot 2 0 9]] m' t'
            = Ok (s', v) ->
            best_makespan <= v /\ ((m' < m)%nat -> best_makespan < v).
Proof.
  split; [reflexivity|].
  apply (lowest_index_wins_ties example_jobs [0; 0; 2]%nat [0; 1; 2]%nat).
  reflexivity.
Defined.

(** ** The finish time of a job *)

Lemma finish_time_inner_ge (job : Z) (s : schedule) (acc : Z) :
  acc <= foldl (fun max_end sl =>
                  if (slot_job sl =? job) && (max_end <? slot_end sl)
                  then slot_end sl else max_end) acc s.
Proof.
  revert acc. induction s as [|sl s IH]; intros acc; simpl; [lia|].
  destruct ((slot_job sl =? job) && (acc <? slot_end sl)) eqn:Hc.
  - apply andb_true_iff in Hc as [_ Hc]. apply Z.ltb_lt in Hc.
    specialize (IH (slot_end sl)). lia.
  - apply IH.
Qed.

Lemma finish_time_inner_bound (job : Z) (s : schedule) (acc : Z) (sl : slot) :
  sl ∈ s -> slot_job sl = job ->
  slot_end sl <= foldl (fun max_end sl =>
                          if (slot_job sl =? job) && (max_end <? slot_end sl)
                          then slot_end sl else max_end) acc s.
Proof.
  revert acc. induction s as [|a s IH]; intros acc Hin Hjob.
  - apply elem_of_nil in Hin. contradiction.
  - simpl. apply elem_of_cons in Hin as [->|Hin]; [|apply IH; assumption].
    rewrite Hjob, Z.eqb_refl. simpl.
    destruct (acc <? slot_end a) eqn:Hc.
    + apply finish_time_inner_ge.
    + apply Z.ltb_ge in Hc.
      pose proof (finish_time_inner_ge job s acc). lia.
Qed.

Lemma finish_time_outer_ge (job : Z) (ms : list schedule) (acc : Z) :
  acc <= foldl (fun max_end schedule_in_machine =>
                  foldl (fun max_end sl =>
                           if (slot_job sl =? job) && (max_end <? slot_end sl)
                           then slot_end sl else max_end)
                        max_end schedule_in_machine) acc ms.
Proof.
  revert acc. induction ms as [|s ms IH]; intros acc; simpl; [lia|].
  etransitivity; [apply (finish_time_inner_ge job s acc)|apply IH].
Qed.

Lemma finish_time_nonneg (job : Z) (ms : list schedule) :
  0 <= finish_time_of_last_operation job ms.
Proof. apply finish_time_outer_ge. Qed.

(** The finish time of a job bounds the end of every slot of the job, on
    whatever machine of the factory it lies. *)
Lemma finish_time_bound (job : Z) (ms : list schedule) (s : schedule)
    (sl : slot) :
  s ∈ ms -> sl ∈ s -> slot_job sl = job ->
  slot_end sl <= finish_time_of_last_operation job ms.
Proof.
  unfold finish_time_of_last_operation. generalize 0.
  induction ms as [|a ms IH]; intros acc Hs Hsl Hjob.
  - apply elem_of_nil in Hs. contradiction.
  - simpl. apply elem_of_cons in Hs as [->|Hs].
    + etransitivity; [apply (finish_time_inner_bound job a acc sl Hsl Hjob)|].
      apply finish_time_outer_ge.
    + apply IH; assumption.
Qed.

(** ** The trial makespan *)

Lemma py_max_spec (l : list Z) (v : Z) :
  py_max l = Ok v <-> v ∈ l /\ forall x, x ∈ l -> x <= v.
Proof.
  destruct l as [|x l]; simpl.
  - split; [discriminate|]. intros [Hin _]. apply elem_of_nil in Hin.
    contradiction.
  - split.
    + intros [= <-]. split; [apply foldl_max_attained|].
      intros y Hy. apply foldl_max_upper. exact Hy.
    + intros [Hin Hup]. f_equal.
      pose proof (foldl_max_attained l x) as Hin'.
      pose proof (foldl_max_upper l x v Hin).
      specialize (Hup _ Hin'). lia.
Qed.

Lemma place_last_end (time job ft prev_end : Z) (s : schedule) :
  0 <= time ->
  last_end prev_end s <= last_end prev_end (place time job ft prev_end s).
Proof.
  intros Ht. revert prev_end. induction s as [|sl s IH]; intros prev_end.
  - unfold last_end. simpl. lia.
  - cbn [place].
    destruct ((ft <? slot_start sl)
              && (time <=? slot_start sl - Z.max ft prev_end)).
    + rewrite (last_end_cons prev_end (Slot _ _ _)).
      rewrite !last_end_cons. lia.
    + rewrite !last_end_cons. apply IH.
Qed.

(** Insertion never lowers the end of the last slot of a schedule. *)
Lemma insert_finish_of (time job ft : Z) (s : schedule) :
  0 <= time -> 0 <= ft ->
  finish_of s <= finish_of (insert_operation_to_schedule time job ft s).
Proof.
  intros Ht Hft. destruct s as [|sl s].
  - unfold finish_of. simpl. lia.
  - rewrite insert_place, !finish_of_last_end. apply place_last_end. exact Ht.
Qed.

Lemma makespan_substitute (ms : list schedule) (m : nat)
    (cur trial : schedule) (v : Z) :
  ms !! m = Some cur ->
  finish_of cur <= finish_of trial ->
  makespan (trial :: ms) = Ok v ->
  makespan (<[m := trial]> ms) = Ok v.
Proof.
  intros Hm Hle. rewrite !makespan_finish_times, !py_max_spec.
  intros [Hin Hup]. split.
  - apply list_elem_of_fmap in Hin as (s & -> & Hs).
    assert (Htrial : finish_of trial ∈ map finish_of (<[m := trial]> ms)).
    { apply list_elem_of_fmap_2. eapply list_elem_of_lookup_2.
      apply list_lookup_insert_eq. eapply lookup_lt_Some. exact Hm. }
    apply elem_of_cons in Hs as [->|Hs]; [exact Htrial|].
    apply list_elem_of_lookup in Hs as [k Hk].
    destruct (decide (k = m)) as [->|Hne].
    + rewrite Hm in Hk. injection Hk as <-.
      assert (finish_of trial <= finish_of cur).
      { apply Hup. apply (list_elem_of_fmap_2 finish_of).
        left. }
      replace (finish_of cur) with (finish_of trial) by lia. exact Htrial.
    + apply list_elem_of_fmap_2. apply list_elem_of_lookup. exists k.
      rewrite list_lookup_insert_ne by congruence. exact Hk.
  - intros x Hx. apply Hup.
    apply list_elem_of_fmap in Hx as (s & -> & Hs).
    apply (list_elem_of_fmap_2 finish_of).
    apply list_elem_of_lookup in Hs as [k Hk].
    destruct (decide (k = m)) as [->|Hne].
    + rewrite list_lookup_insert_eq in Hk by (eapply lookup_lt_Some; exact Hm).
      injection Hk as <-. left.
    + rewrite list_lookup_insert_ne in Hk by congruence.
      right. eapply list_elem_of_lookup_2. exact Hk.
Qed.

(** C7: for a machine [m] with a schedule and a processing time that is
    not negative, the insertion at the job's finish time does not lower
    the end of the machine's last slot, and the trial makespan the decoder
    computes (the trial schedule together with all current schedules, the
    replaced one included) is the makespan of the machine schedules with
    the trial substituted for the schedule of [m]. *)
Theorem trial_makespan_is_substituted (gene : Z) (ms : list schedule)
    (m : nat) (t : Z) (cur : schedule) :
  ms !! m = Some cur -> 0 <= t ->
  let finish_time := finish_time_of_last_operation gene ms in
  let trial := insert_operation_to_schedule t gene finish_time cur in
  finish_of cur <= finish_of trial
  /\ exists v, try_machine gene finish_time ms m t = Ok (trial, v)
       /\ makespan_substituted ms m trial = Ok v.
Proof.
  intros Hm Ht finish_time trial.
  assert (Hle : finish_of cur <= finish_of trial).
  { apply insert_finish_of; [exact Ht|apply finish_time_nonneg]. }
  split; [exact Hle|].
  destruct (try_machine_lookup gene finish_time ms m t cur Hm) as [v Hv].
  exists v. split; [exact Hv|].
  apply try_machine_Ok in Hv as (cur' & Hm' & _ & Hmk).
  unfold makespan_substituted.
  exact (makespan_substitute ms m cur trial v Hm Hle Hmk).
Qed.

(** C7 in the reference scenario: the second operation of job 2 tried on
    machine 2, which holds its first operation. *)
Lemma trial_makespan_is_substituted_witness :
  finish_of [Slot 2 0 9]
  <= finish_of
       (insert_operation_to_schedule 10 2
          (finish_time_of_last_operation 2 [[]; []; [Slot 2 0 9]])
          [Slot 2 0 9])
  /\ exists v,
       try_machine 2 (finish_time_of_last_operation 2 [[]; []; [Slot 2 0 9]])
         [[]; []; [Slot 2 0 9]] 2 10
       = Ok (insert_operation_to_schedule 10 2
               (finish_time_of_last_operation 2 [[]; []; [Slot 2 0 9]])
               [Slot 2 0 9], v)
       /\ makespan_substituted [[]; []; [Slot 2 0 9]] 2
            (insert_operation_to_schedule 10 2
               (finish_time_of_last_operation 2 [[]; []; [Slot 2 0 9]])
               [Slot 2 0 9])
          = Ok v.
Proof.
  apply (trial_makespan_is_substituted 2 [[]; []; [Slot 2 0 9]] 2 10
           [Slot 2 0 9]); [reflexivity|lia].
Defined.

(** ** Genomes of different lengths *)

(** C3 (as amended): the orchestrator raises no length-mismatch error; it
    pairs the two genomes position by position up to the length of the
    shorter one and ignores the rest, so its result is the result on the
    two genomes cut to that common length. *)
Theorem length_mismatch_truncates (og fg : list Z)
    (jobs : list (list (list Z))) (n_machines n_factories : Z) :
  length (take (length fg) og) = length (take (length og) fg)
  /\ schedule_in_multiple_factory og fg jobs n_machines n_factories
     = schedule_in_multiple_factory (take (length fg) og) (take (length og) fg)
         jobs n_machines n_factories.
Proof.
  split.
  - rewrite !length_take. lia.
  - unfold schedule_in_multiple_factory.
    rewrite zip_with_take_both. reflexivity.
Qed.

(** C3 (as stated) fails: an operation-genome of length 2 with a
    factory-genome of length 1 is decoded, and a makespan and a schedule
    are returned. *)
Lemma length_mismatch_is_decoded :
  length [0; 0] <> length [0]
  /\ schedule_in_multiple_factory [0; 0] [0] [[[5]; [7]]] 1 1
     = Ok (5, [[[Slot 0 0 5]]]).
Proof. split; [discriminate|reflexivity]. Qed.

(** ** Factory indices *)

Lemma py_index_Raise (len : nat) (i : Z) (e : exn) :
  py_index len i = Raise e -> e = IndexError.
Proof.
  unfold py_index.
  destruct ((0 <=? i) && (i <? Z.of_nat len)); [discriminate|].
  destruct ((- Z.of_nat len <=? i) && (i <? 0)); [discriminate|].
  intros [= <-]. reflexivity.
Qed.

Lemma py_index_out_of_range (len : nat) (i : Z) :
  Z.of_nat len <= i \/ i < - Z.of_nat len ->
  py_index len i = Raise IndexError.
Proof.
  intros Hbad. unfold py_index.
  destruct ((0 <=? i) && (i <? Z.of_nat len)) eqn:H1.
  { apply andb_true_iff in H1 as [H0 H1].
    apply Z.leb_le in H0. apply Z.ltb_lt in H1. lia. }
  destruct ((- Z.of_nat len <=? i) && (i <? 0)) eqn:H2; [|reflexivity].
  apply andb_true_iff in H2 as [H0 H2].
  apply Z.leb_le in H0. apply Z.ltb_lt in H2. lia.
Qed.

Lemma py_index_in_range (len : nat) (i : Z) :
  - Z.of_nat len <= i < Z.of_nat len ->
  py_index len i = Ok (Z.to_nat (i mod Z.of_nat len)).
Proof.
  intros Hr. unfold py_index.
  destruct ((0 <=? i) && (i <? Z.of_nat len)) eqn:H1.
  - apply andb_true_iff in H1 as [H0 H1].
    apply Z.leb_le in H0. apply Z.ltb_lt in H1.
    rewrite Z.mod_small by lia. reflexivity.
  - assert (Hneg : i < 0).
    { apply andb_false_iff in H1 as [H1|H1];
        [apply Z.leb_gt in H1|apply Z.ltb_ge in H1]; lia. }
    replace ((- Z.of_nat len <=? i) && (i <? 0)) with true.
    + f_equal. f_equal.
      rewrite <- (Z.mod_add i 1 (Z.of_nat len)) by lia.
      rewrite Z.mod_small by lia. lia.
    + symmetry. apply andb_true_iff. split; [apply Z.leb_le|apply Z.ltb_lt]; lia.
Qed.

Lemma distribute_out_of_range (subgenomes : list (list Z))
    (pairs : list (Z * Z)) (op fac : Z) :
  (op, fac) ∈ pairs ->
  Z.of_nat (length subgenomes) <= fac \/ fac < - Z.of_nat (length subgenomes) ->
  distribute subgenomes pairs = Raise IndexError.
Proof.
  revert subgenomes.
  induction pairs as [|[op' fac'] rest IH]; intros sgs Hin Hbad.
  - apply elem_of_nil in Hin. contradiction.
  - simpl. apply elem_of_cons in Hin as [[= <- <-]|Hin].
    + rewrite (py_index_out_of_range _ _ Hbad). reflexivity.
    + destruct (py_index (length sgs) fac') as [idx|e] eqn:Hidx; simpl.
      * destruct (sgs !! idx) as [sg|]; [|reflexivity].
        apply IH; [exact Hin|]. rewrite length_insert. exact Hbad.
      * apply py_index_Raise in Hidx. subst e. reflexivity.
Qed.

Lemma distribute_normalise (subgenomes : list (list Z)) (og fg : list Z) :
  (forall op fac, (op, fac) ∈ zip og fg ->
     - Z.of_nat (length subgenomes) <= fac < Z.of_nat (length subgenomes)) ->
  distribute subgenomes (zip og fg)
  = distribute subgenomes
      (zip og (map (fun fac => fac mod Z.of_nat (length subgenomes)) fg)).
Proof.
  revert subgenomes fg. induction og as [|op og IH]; intros sgs fg Hr;
    [reflexivity|].
  destruct fg as [|fac fg]; [reflexivity|].
  assert (Hfac : - Z.of_nat (length sgs) <= fac < Z.of_nat (length sgs)).
  { apply (Hr op). left. }
  simpl. rewrite (py_index_in_range _ _ Hfac).
  rewrite (py_index_in_range _ (fac mod _)).
  2:{ pose proof (Z.mod_pos_bound fac (Z.of_nat (length sgs))). lia. }
  rewrite Z.mod_mod by lia. simpl.
  destruct (sgs !! _) as [sg|]; [|reflexivity].
  specialize (IH (<[Z.to_nat (fac mod Z.of_nat (length sgs)) := sg ++ [op]]> sgs) fg).
  rewrite length_insert in IH. apply IH.
  intros op' fac' Hin. apply (Hr op'). right. exact Hin.
Qed.

(** C10 (as amended): a factory-genome value that is paired with a gene
    and is at least [n_factories] or below [- n_factories] makes the
    orchestrator raise [IndexError]; when every paired value lies in
    [[- n_factories, n_factories)] the result is the one obtained with
    every value [fac] replaced by [fac mod n_factories], so a negative
    value [fac] in that range is accepted and addresses factory
    [n_factories + fac]. *)
Theorem factory_index_range (og fg : list Z) (jobs : list (list (list Z)))
    (n_machines n_factories : Z) :
  ((exists op fac, (op, fac) ∈ zip og fg
       /\ (n_factories <= fac \/ fac < - n_factories)) ->
   schedule_in_multiple_factory og fg jobs n_machines n_factories
   = Raise IndexError)
  /\ ((forall op fac, (op, fac) ∈ zip og fg ->
         - n_factories <= fac < n_factories) ->
      schedule_in_multiple_factory og fg jobs n_machines n_factories
      = schedule_in_multiple_factory og
          (map (fun fac => fac mod n_factories) fg)
          jobs n_machines n_factories).
Proof.
  split.
  - intros (op & fac & Hin & Hbad). unfold schedule_in_multiple_factory.
    rewrite (distribute_out_of_range _ _ op fac Hin); [reflexivity|].
    rewrite length_replicate. lia.
  - intros Hr. unfold schedule_in_multiple_factory.
    destruct og as [|op og]; [reflexivity|].
    destruct fg as [|fac fg]; [reflexivity|].
    assert (Hpos : 0 < n_factories).
    { specialize (Hr op fac ltac:(left)). lia. }
    pose proof (distribute_normalise
                  (replicate (Z.to_nat n_factories) []) (op :: og) (fac :: fg))
      as Hn.
    rewrite length_replicate, Z2Nat.id in Hn by lia.
    rewrite Hn; [reflexivity|]. exact Hr.
Qed.

(** C10 (as amended) with two factories: the value 2 raises, and the
    values -1 and -2 address the factories 1 and 0. *)
Lemma factory_index_range_witness :
  schedule_in_multiple_factory [0] [2] [[[5]]] 1 2 = Raise IndexError
  /\ schedule_in_multiple_factory [0; 0] [-1; -2] [[[5]]] 1 2
     = schedule_in_multiple_factory [0; 0]
         (map (fun fac => fac mod 2) [-1; -2]) [[[5]]] 1 2.
Proof.
  split.
  - apply (proj1 (factory_index_range [0] [2] [[[5]]] 1 2)).
    exists 0, 2. split; [left|lia].
  - apply (proj2 (factory_index_range [0; 0] [-1; -2] [[[5]]] 1 2)).
    intros op fac Hin.
    apply elem_of_cons in Hin as [[= -> ->]|Hin]; [lia|].
    apply list_elem_of_singleton in Hin. injection Hin as -> ->. lia.
Defined.

(** C10 (as stated) fails: the factory index -1, with two factories, is
    accepted, and the gene is scheduled in the last factory. *)
Lemma negative_factory_index_is_accepted :
  ~ (0 <= -1 < 2)
  /\ schedule_in_multiple_factory [0] [-1] [[[5]]] 1 2
     = Ok (5, [[[]]; [[Slot 0 0 5]]]).
Proof. split; [lia|reflexivity]. Qed.

(** ** Unavailable machines

    The decoder has no test for the sentinel: an entry [INF] of an
    operation is a processing time like any other. *)

Lemma next_operation_increment (jobs : list (list (list Z)))
    (cnt : list nat) (gene : Z) (operation : list Z) :
  next_operation jobs cnt gene = Ok operation ->
  exists cnt', increment_counter cnt gene = Ok cnt'.
Proof.
  unfold next_operation, increment_counter. intros H. inv_bind H. inv_bind H.
  apply getitem_Ok in Ha0 as (idx & -> & Hidx). simpl. rewrite Hidx. eauto.
Qed.

(** A gene whose operation is resolved and has an entry for at least one
    machine, and for no more machines than the factory has, is
    scheduled. *)
Lemma schedule_gene_total (jobs : list (list (list Z))) (cnt : list nat)
    (ms : list schedule) (gene : Z) (operation : list Z) :
  next_operation jobs cnt gene = Ok operation ->
  operation <> [] ->
  (length operation <= length ms)%nat ->
  exists cnt' ms', schedule_gene jobs (cnt, ms) gene = Ok (cnt', ms').
Proof.
  intros Hop Hne Hlen. unfold schedule_gene. rewrite Hop. simpl.
  destruct (select_machine_total gene (finish_time_of_last_operation gene ms)
              ms operation 0 None ltac:(simpl; lia)) as (res & -> & Hres).
  destruct (Hres (or_introl Hne)) as [[[bm m] s] ->]. simpl.
  destruct (next_operation_increment _ _ _ _ Hop) as [cnt' ->]. simpl. eauto.
Qed.

(** C2 (as amended): an operation whose processing time is the sentinel
    on every machine raises no error; when it has an entry for at least one
    machine and for no more machines than the factory has, the gene is
    scheduled like any other: one slot of the job, as long as the sentinel,
    is put into the schedule of one machine. *)
Theorem all_sentinel_operation_is_committed (jobs : list (list (list Z)))
    (cnt : list nat) (ms : list schedule) (gene : Z) (operation : list Z) :
  next_operation jobs cnt gene = Ok operation ->
  operation <> [] ->
  Forall (fun t => t = INF) operation ->
  (length operation <= length ms)%nat ->
  exists (cnt' : list nat) (m : nat) (cur : schedule) (index : nat)
         (start : Z),
    ms !! m = Some cur
    /\ schedule_gene jobs (cnt, ms) gene
       = Ok (cnt', <[m := take index cur
                            ++ Slot gene start (start + INF)
                            :: drop index cur]> ms).
Proof.
  intros Hop Hne Hall Hlen.
  destruct (schedule_gene_total jobs cnt ms gene operation Hop Hne Hlen)
    as (cnt' & ms' & Hstep).
  pose proof Hstep as Hc.
  apply schedule_gene_commit in Hc as (op & m & t & cur & Hop' & Ht & Hcur & Hms').
  rewrite Hop in Hop'. injection Hop' as <-.
  rewrite Forall_lookup in Hall. specialize (Hall m t Ht). simpl in Hall.
  subst t.
  destruct (insert_shape INF gene (finish_time_of_last_operation gene ms) cur)
    as (index & start & Hshape & _).
  exists cnt', m, cur, index, start. split; [exact Hcur|].
  rewrite Hstep, Hms', Hshape. reflexivity.
Qed.

(** C2 (as amended) on a job whose only operation is unavailable on both
    machines. *)
Lemma all_sentinel_operation_is_committed_witness :
  exists (cnt' : list nat) (m : nat) (cur : schedule) (index : nat)
         (start : Z),
    [[]; []] !! m = Some cur
    /\ schedule_gene [[[INF; INF]]] ([0%nat], [[]; []]) 0
       = Ok (cnt', <[m := take index cur
                            ++ Slot 0 start (start + INF)
                            :: drop index cur]> [[]; []]).
Proof.
  apply (all_sentinel_operation_is_committed [[[INF; INF]]] [0%nat] [[]; []] 0
           [INF; INF]).
  - reflexivity.
  - discriminate.
  - repeat constructor.
  - simpl. lia.
Defined.

(** C2 (as stated) fails: the operation is unavailable on both machines,
    no error is raised and a slot as long as the sentinel is committed on
    machine 0. *)
Lemma all_sentinel_operation_raises_nothing :
  Forall (fun t => t = INF) [INF; INF]
  /\ schedule_in_single_factory [0] [[[INF; INF]]] 2
     = Ok [[Slot 0 0 INF]; []].
Proof. split; [repeat constructor|reflexivity]. Qed.

Lemma chained_last_end (lo : Z) (s : schedule) :
  chained lo s -> lo <= last_end lo s.
Proof.
  revert lo. induction s as [|sl s IH]; intros lo Hc.
  - unfold last_end. simpl. lia.
  - destruct Hc as (Hlo & Hok & Hc). rewrite last_end_cons.
    specialize (IH _ Hc). lia.
Qed.

Lemma place_last_end_ge (time job ft prev_end lo : Z) (s : schedule) :
  chained lo s ->
  ft + time <= last_end prev_end (place time job ft prev_end s).
Proof.
  revert prev_end lo. induction s as [|sl s IH]; intros prev_end lo Hc.
  - unfold last_end. simpl. lia.
  - cbn [place]. destruct Hc as (Hlo & Hok & Hc).
    destruct ((ft <? slot_start sl)
              && (time <=? slot_start sl - Z.max ft prev_end)) eqn:Hfit.
    + apply andb_true_iff in Hfit as [_ Hfit]. apply Z.leb_le in Hfit.
      rewrite !last_end_cons. pose proof (chained_last_end _ _ Hc). lia.
    + rewrite last_end_cons. apply (IH _ (slot_end sl)). exact Hc.
Qed.

(** In a valid schedule the inserted slot ends no later than the last
    slot of the new schedule. *)
Lemma insert_finish_of_ge (time job ft : Z) (s : schedule) :
  valid_schedule s ->
  ft + time <= finish_of (insert_operation_to_schedule time job ft s).
Proof.
  intros Hv. destruct s as [|sl s].
  - unfold finish_of. simpl. lia.
  - destruct (valid_chained _ Hv) as [lo Hc].
    rewrite insert_place, finish_of_last_end.
    apply (place_last_end_ge _ _ _ _ lo). exact Hc.
Qed.

Lemma try_machine_sentinel (gene : Z) (ms : list schedule) (m : nat)
    (s : schedule) (v : Z) :
  Forall valid_schedule ms ->
  try_machine gene (finish_time_of_last_operation gene ms) ms m INF
  = Ok (s, v) ->
  INF <= v.
Proof.
  intros Hv Htry. apply try_machine_Ok in Htry as (cur & Hcur & -> & Hmk).
  rewrite makespan_cons in Hmk. injection Hmk as <-.
  rewrite Forall_lookup in Hv. specialize (Hv m cur Hcur).
  pose proof (insert_finish_of_ge INF gene
                (finish_time_of_last_operation gene ms) cur Hv).
  pose proof (finish_time_nonneg gene ms).
  match goal with |- _ <= foldl Z.max ?x ?l =>
    pose proof (foldl_max_ge l x) end.
  lia.
Qed.

(** C9 (as amended): the decoder knows no unavailable machine; when the
    machine schedules are valid, the operation has the sentinel on every
    machine but [a], and the trial makespan on [a] is below the sentinel,
    the operation is committed to machine [a]. *)
Theorem single_available_machine_is_chosen (jobs : list (list (list Z)))
    (cnt : list nat) (ms : list schedule) (gene : Z) (operation : list Z)
    (a : nat) (t : Z) (s : schedule) (v : Z) :
  Forall valid_schedule ms ->
  next_operation jobs cnt gene = Ok operation ->
  (length operation <= length ms)%nat ->
  operation !! a = Some t ->
  (forall m t', m <> a -> operation !! m = Some t' -> t' = INF) ->
  try_machine gene (finish_time_of_last_operation gene ms) ms a t = Ok (s, v) ->
  v < INF ->
  exists cnt', schedule_gene jobs (cnt, ms) gene = Ok (cnt', <[a := s]> ms).
Proof.
  intros Hv Hop Hlen Ha Hothers Htry Hlt.
  assert (Hne : operation <> []) by (intros ->; discriminate).
  destruct (schedule_gene_total jobs cnt ms gene operation Hop Hne Hlen)
    as (cnt' & ms' & Hstep).
  exists cnt'. rewrite Hstep. f_equal. f_equal.
  apply schedule_gene_Ok in Hstep as (op & bm & m & s' & Hop' & Hsel & -> & _).
  rewrite Hop in Hop'. injection Hop' as <-.
  apply select_machine_spec in Hsel. simpl in Hsel.
  destruct Hsel as (_ & (t' & Ht' & Htry') & Hall).
  destruct (decide (m = a)) as [->|Hma].
  - rewrite Ha in Ht'. injection Ht' as <-.
    rewrite Htry in Htry'. injection Htry' as <- _. reflexivity.
  - exfalso. rewrite (Hothers m t' Hma Ht') in Htry'.
    pose proof (try_machine_sentinel gene ms m s' bm Hv Htry').
    destruct (Hall a t s v (lookup_lt_Some _ _ _ Ha) Ha Htry). lia.
Qed.

(** C9 (as amended) on an operation that takes 5 on machine 0 and is
    unavailable on machine 1, in an empty factory. *)
Lemma single_available_machine_is_chosen_witness :
  exists cnt',
    schedule_gene [[[5; INF]]] ([0%nat], [[]; []]) 0
    = Ok (cnt', <[0%nat := [Slot 0 0 5]]> [[]; []]).
Proof.
  apply (single_available_machine_is_chosen [[[5; INF]]] [0%nat] [[]; []] 0
           [5; INF] 0%nat 5 [Slot 0 0 5] 5).
  - repeat (apply Forall_cons; split; [exact valid_schedule_nil|]).
    apply Forall_nil_2.
  - reflexivity.
  - simpl. lia.
  - reflexivity.
  - intros [|[|m]] t' Hm Ht'; [congruence|injection Ht' as <-; reflexivity|
                               discriminate].
  - reflexivity.
  - reflexivity.
Defined.

(** C9 (as stated) fails: every operation below has a machine on which it
    is available; the only operation of job 1 is available on machine 0
    alone, and it is committed to machine 1, where its processing time is
    the sentinel, because the trial makespan is smaller there. *)
Lemma unavailable_machine_is_chosen :
  schedule_in_single_factory [0; 0; 1]
    [ [ [INF - 1; INF]; [INF - 1; INF] ]; [ [5; INF] ] ] 2
  = Ok [ [Slot 0 0 (INF - 1); Slot 0 (INF - 1) (2 * INF - 2)];
         [Slot 1 0 INF] ].
Proof. vm_compute. reflexivity. Qed.

(** ** Precedence within a job *)

Lemma sublist_insert_middle {A : Type} (l : list A) (index : nat) (x : A) :
  l `sublist_of` take index l ++ x :: drop index l.
Proof.
  rewrite <- (take_drop index l) at 1.
  apply sublist_app; [reflexivity|]. apply sublist_cons. reflexivity.
Qed.

Lemma schedule_gene_precedence (jobs : list (list (list Z)))
    (cnt cnt' : list nat) (ms ms' : list schedule) (gene : Z) :
  schedule_gene jobs (cnt, ms) gene = Ok (cnt', ms') ->
  commits_after_job ms gene ms'.
Proof.
  intros H.
  apply schedule_gene_commit in H as (op & m & t & cur & _ & _ & Hcur & ->).
  destruct (insert_shape t gene (finish_time_of_last_operation gene ms) cur)
    as (index & start & -> & Hstart).
  exists m, cur, index, (Slot gene start (start + t)).
  split; [exact Hcur|]. split; [reflexivity|]. split; [reflexivity|].
  intros s sl Hs Hsl Hjob. simpl.
  pose proof (finish_time_bound gene ms s sl Hs Hsl Hjob). lia.
Qed.

Lemma commits_after_job_kept (before after : list schedule) (gene : Z) :
  commits_after_job before gene after -> Forall2 sublist before after.
Proof.
  intros (m & cur & index & new_slot & Hcur & -> & _).
  rewrite <- (list_insert_id before m cur Hcur) at 1.
  apply Forall2_insert.
  - apply Forall2_same_length_lookup_2; [reflexivity|].
    intros i x y Hx Hy. rewrite Hx in Hy. injection Hy as <-. reflexivity.
  - apply sublist_insert_middle.
Qed.

Lemma Forall2_sublist_trans (l1 l2 l3 : list schedule) :
  Forall2 sublist l1 l2 -> Forall2 sublist l2 l3 -> Forall2 sublist l1 l3.
Proof.
  intros H12. revert l3. induction H12 as [|a b l1 l2 Hab _ IH]; intros l3 H23.
  - inversion H23. constructor.
  - inversion H23 as [|b' c l2' l3' Hbc H23']; subst.
    constructor; [etransitivity; eassumption|apply IH; assumption].
Qed.

Lemma Forall2_sublist_refl (l : list schedule) : Forall2 sublist l l.
Proof. induction l; constructor; [reflexivity|assumption]. Qed.

(** Committed slots are never moved nor removed. *)
Lemma schedule_genes_kept (jobs : list (list (list Z))) (genome : list Z)
    (st st' : decoder_state) :
  schedule_genes jobs st genome = Ok st' ->
  Forall2 sublist (snd st) (snd st').
Proof.
  revert st. induction genome as [|gene rest IH]; intros st H.
  - injection H as <-. apply Forall2_sublist_refl.
  - simpl in H. inv_bind H. apply (Forall2_sublist_trans _ (snd a)).
    + destruct st as [cnt ms], a as [cnt1 ms1].
      eapply commits_after_job_kept, schedule_gene_precedence. exact Ha.
    + apply IH. exact H.
Qed.

Lemma single_factory_precedence (g1 g2 : list Z) (gene : Z)
    (jobs : list (list (list Z))) (n_machines : Z) (fs : list schedule) :
  schedule_in_single_factory (g1 ++ gene :: g2) jobs n_machines = Ok fs ->
  exists before after : list schedule,
    schedule_in_single_factory g1 jobs n_machines = Ok before
    /\ schedule_in_single_factory (g1 ++ [gene]) jobs n_machines = Ok after
    /\ commits_after_job before gene after
    /\ Forall2 sublist after fs.
Proof.
  unfold schedule_in_single_factory. intros H. inv_bind H. injection H as <-.
  rewrite schedule_genes_app in Ha. inv_bind Ha. rename a0 into st1.
  simpl in Ha. inv_bind Ha. rename a0 into st2.
  exists (snd st1), (snd st2).
  rewrite schedule_genes_app, Ha0. simpl. rewrite Ha1. simpl.
  repeat split.
  - destruct st1 as [cnt1 ms1], st2 as [cnt2 ms2].
    eapply schedule_gene_precedence. exact Ha1.
  - eapply schedule_genes_kept. exact Ha.
Qed.

Lemma distribute_lookup (subgenomes subgenomes' : list (list Z))
    (pairs : list (Z * Z)) (f : nat) :
  distribute subgenomes pairs = Ok subgenomes' ->
  subgenomes' !! f
  = (fun sg => sg ++ genes_of_factory (length subgenomes) f pairs)
      <$> subgenomes !! f.
Proof.
  revert subgenomes. induction pairs as [|[op fac] rest IH]; intros sgs H.
  - injection H as <-. simpl. destruct (sgs !! f) as [sg|]; simpl; [|reflexivity].
    rewrite app_nil_r. reflexivity.
  - simpl in H. inv_bind H. rename a into idx.
    destruct (sgs !! idx) as [sg|] eqn:Hsg; [|discriminate].
    rewrite (IH _ H), length_insert. simpl. rewrite Ha.
    destruct (Nat.eqb_spec idx f) as [->|Hne].
    + rewrite list_lookup_insert_eq by (eapply lookup_lt_Some; exact Hsg).
      rewrite Hsg. simpl. rewrite <- (assoc_L (++)). reflexivity.
    + rewrite list_lookup_insert_ne by exact Hne. reflexivity.
Qed.

(** Every factory decodes the genes that the factory-genome sends to
    it. *)
Lemma multiple_factory_lookup (og fg : list Z) (jobs : list (list (list Z)))
    (n_machines n_factories : Z) (mk : Z) (gs : list (list schedule))
    (f : nat) (fs : list schedule) :
  schedule_in_multiple_factory og fg jobs n_machines n_factories = Ok (mk, gs) ->
  gs !! f = Some fs ->
  schedule_in_single_factory
    (genes_of_factory (Z.to_nat n_factories) f (zip og fg)) jobs n_machines
  = Ok fs.
Proof.
  intros H Hf. apply multiple_factory_Ok in H as (sgs & Hd & Hall & _).
  destruct (Forall2_lookup_r _ _ _ _ _ Hall Hf) as (sg & Hsg & Hfs).
  rewrite (distribute_lookup _ _ _ f Hd), length_replicate in Hsg.
  destruct (replicate (Z.to_nat n_factories) [] !! f) as [e|] eqn:He;
    [|discriminate].
  apply lookup_replicate in He as [-> _]. simpl in Hsg.
  injection Hsg as <-. exact Hfs.
Qed.

(** C1 (as amended): in a decoded genome pair every factory [f] holds the
    decoding of the genes sent to it, and for every gene of that
    sub-genome the slot committed for it starts at or after the end of
    every slot of the same job committed earlier in the same factory, on
    whatever machine; the slot, like every earlier one, is kept in the
    factory's final schedule.  The earliest start is computed from the
    slots of the job in the same factory only. *)
Theorem precedence_within_factory (og fg : list Z)
    (jobs : list (list (list Z))) (n_machines n_factories : Z) (mk : Z)
    (gs : list (list schedule)) (f : nat) (fs : list schedule) :
  schedule_in_multiple_factory og fg jobs n_machines n_factories = Ok (mk, gs) ->
  gs !! f = Some fs ->
  let subgenome := genes_of_factory (Z.to_nat n_factories) f (zip og fg) in
  schedule_in_single_factory subgenome jobs n_machines = Ok fs
  /\ forall (g1 : list Z) (gene : Z) (g2 : list Z),
       subgenome = g1 ++ gene :: g2 ->
       exists before after : list schedule,
         schedule_in_single_factory g1 jobs n_machines = Ok before
         /\ schedule_in_single_factory (g1 ++ [gene]) jobs n_machines = Ok after
         /\ commits_after_job before gene after
         /\ Forall2 sublist after fs.
Proof.
  intros H Hf subgenome.
  pose proof (multiple_factory_lookup _ _ _ _ _ _ _ _ _ H Hf) as Hfs.
  split; [exact Hfs|]. intros g1 gene g2 Hsplit.
  apply single_factory_precedence with (g2 := g2).
  rewrite <- Hsplit. exact Hfs.
Qed.

(** C1 (as amended) at factory 0 of the reference scenario. *)
Lemma precedence_within_factory_witness :
  let fs := [ [Slot 1 0 7; Slot 1 7 16];
              [Slot 2 9 19; Slot 1 19 26];
              [Slot 2 0 9; Slot 2 19 24] ] in
  let subgenome :=
    genes_of_factory (Z.to_nat 2) 0
      (zip example_operation_genome example_factory_genome) in
  schedule_in_single_factory subgenome example_jobs 3 = Ok fs
  /\ forall (g1 : list Z) (gene : Z) (g2 : list Z),
       subgenome = g1 ++ gene :: g2 ->
       exists before after : list schedule,
         schedule_in_single_factory g1 example_jobs 3 = Ok before
         /\ schedule_in_single_factory (g1 ++ [gene]) example_jobs 3 = Ok after
         /\ commits_after_job before gene after
         /\ Forall2 sublist after fs.
Proof.
  intros fs.
  apply (precedence_within_factory example_operation_genome
           example_factory_genome example_jobs 3 2 26
           [fs; [[Slot 0 0 7; Slot 0 7 9]; []; []]] 0 fs).
  - vm_compute. reflexivity.
  - reflexivity.
Defined.

(** C1 (as stated) fails: with the two operations of job 0 sent to two
    factories, each factory starts the job at time 0, and in no order do
    the two slots of the job follow one another. *)
Lemma precedence_across_factories_fails :
  schedule_in_multiple_factory [0; 0] [0; 1] [[[5]; [7]]] 1 2
  = Ok (5, [[[Slot 0 0 5]]; [[Slot 0 0 5]]])
  /\ ~ job_precedence [[[Slot 0 0 5]]; [[Slot 0 0 5]]] 0.
Proof.
  split; [reflexivity|].
  intros (l & Hperm & Hord).
  change (slots_of_job 0 [[[Slot 0 0 5]]; [[Slot 0 0 5]]])
    with [Slot 0 0 5; Slot 0 0 5] in Hperm.
  pose proof (Permutation_length Hperm) as Hlen.
  destruct l as [|a [|b [|c l]]]; try discriminate Hlen.
  assert (Ha : a ∈ [Slot 0 0 5; Slot 0 0 5]).
  { rewrite <- Hperm. left. }
  assert (Hb : b ∈ [Slot 0 0 5; Slot 0 0 5]).
  { rewrite <- Hperm. right. left. }
  destruct Hord as [Hord _].
  apply elem_of_cons in Ha as [->|Ha];
    [|apply list_elem_of_singleton in Ha; subst a];
    (apply elem_of_cons in Hb as [->|Hb];
       [|apply list_elem_of_singleton in Hb; subst b]);
    simpl in Hord; lia.
Qed.

(** * Further properties of the decoder *)

(** ** The place of an inserted operation *)

Lemma chained_starts (lo : Z) (s : schedule) :
  chained lo s -> Forall (fun sl => lo <= slot_start sl) s.
Proof.
  intros Hc. apply Forall_lookup. intros i sl Hi.
  destruct (chained_lookup _ _ _ _ Hc Hi). assumption.
Qed.

Lemma place_earliest (time job ft prev_end : Z) (s : schedule) :
  0 < time -> chained prev_end s ->
  exists (index : nat) (start : Z),
    place time job ft prev_end s
    = take index s ++ Slot job start (start + time) :: drop index s
    /\ Z.max ft prev_end <= start
    /\ fits time start s
    /\ forall start', ft <= start' -> prev_end <= start' ->
         fits time start' s -> start <= start'.
Proof.
  intros Ht. revert prev_end. induction s as [|sl s IH]; intros prev_end Hc.
  - exists 0%nat, (Z.max ft prev_end). split; [reflexivity|].
    split; [lia|]. split; [constructor|]. intros; lia.
  - cbn [place]. destruct Hc as (Hlo & Hok & Hc).
    pose proof (chained_starts _ _ Hc) as Hstarts.
    destruct ((ft <? slot_start sl)
              && (time <=? slot_start sl - Z.max ft prev_end)) eqn:Hfit.
    + apply andb_true_iff in Hfit as [_ Hfit]. apply Z.leb_le in Hfit.
      exists 0%nat, (Z.max ft prev_end). split; [reflexivity|].
      split; [lia|]. split; [|intros; lia].
      constructor; [left; lia|].
      eapply Forall_impl; [exact Hstarts|]. simpl. intros b Hb. left. lia.
    + destruct (IH (slot_end sl) Hc) as (index & start & -> & Hge & Hin & Hmin).
      exists (S index), start. split; [reflexivity|].
      split; [lia|]. split; [constructor; [right; lia|exact Hin]|].
      intros start' Hft Hprev Hfits.
      apply Forall_cons in Hfits as [[Hbefore|Hafter] Hfits].
      * exfalso. apply andb_false_iff in Hfit as [Hfit|Hfit];
          [apply Z.ltb_ge in Hfit|apply Z.leb_gt in Hfit]; lia.
      * apply Hmin; assumption.
Qed.

Lemma valid_nonneg_chained (s : schedule) :
  valid_schedule s -> Forall (fun sl => 0 <= slot_start sl) s -> chained 0 s.
Proof.
  intros Hv Hpos. destruct (valid_chained s Hv) as [lo Hc].
  destruct s as [|sl s]; [exact I|].
  destruct Hc as (_ & Hok & Hc). apply Forall_cons in Hpos as [Hsl _].
  simpl. auto.
Qed.

(** X1: in a valid schedule whose slots start at or after time 0, an
    operation of positive length with an earliest start that is not
    negative is put where it meets no slot, at the earliest time, from its
    earliest start on, at which it meets none; the slots of the schedule
    stay as they are, in their order. *)
Theorem insert_earliest_start (time job ft : Z) (s : schedule) :
  valid_schedule s -> Forall (fun sl => 0 <= slot_start sl) s ->
  0 < time -> 0 <= ft ->
  exists (index : nat) (start : Z),
    insert_operation_to_schedule time job ft s
    = take index s ++ Slot job start (start + time) :: drop index s
    /\ ft <= start
    /\ fits time start s
    /\ forall start', ft <= start' -> fits time start' s -> start <= start'.
Proof.
  intros Hv Hpos Ht Hft. destruct s as [|sl s].
  - exists 0%nat, ft. split; [reflexivity|]. split; [lia|].
    split; [constructor|]. intros; lia.
  - rewrite insert_place.
    destruct (place_earliest time job ft 0 (sl :: s) Ht
                (valid_nonneg_chained _ Hv Hpos))
      as (index & start & Heq & Hge & Hfits & Hmin).
    exists index, start. split; [exact Heq|]. split; [lia|].
    split; [exact Hfits|]. intros start' Hs' Hf'. apply Hmin; [lia|lia|exact Hf'].
Qed.

(** X1 at the example of the docstring of [insert_operation_to_schedule]. *)
Lemma insert_earliest_start_witness :
  exists (index : nat) (start : Z),
    insert_operation_to_schedule 7 3 0 [Slot 1 1 3; Slot 2 6 9; Slot 1 20 22]
    = take index [Slot 1 1 3; Slot 2 6 9; Slot 1 20 22]
        ++ Slot 3 start (start + 7)
        :: drop index [Slot 1 1 3; Slot 2 6 9; Slot 1 20 22]
    /\ 0 <= start
    /\ fits 7 start [Slot 1 1 3; Slot 2 6 9; Slot 1 20 22]
    /\ forall start', 0 <= start' ->
         fits 7 start' [Slot 1 1 3; Slot 2 6 9; Slot 1 20 22] ->
         start <= start'.
Proof.
  apply (insert_earliest_start 7 3 0 [Slot 1 1 3; Slot 2 6 9; Slot 1 20 22]).
  - exact documented_schedule_valid.
  - repeat (apply Forall_cons; split; [simpl; lia|]). apply Forall_nil_2.
  - lia.
  - lia.
Defined.

(** ** The finish time of a job *)

Lemma finish_time_inner_attained (job : Z) (s : schedule) (acc : Z) :
  let r := foldl (fun max_end sl =>
                    if (slot_job sl =? job) && (max_end <? slot_end sl)
                    then slot_end sl else max_end) acc s in
  r = acc \/ exists sl, sl ∈ s /\ slot_job sl = job /\ slot_end sl = r.
Proof.
  revert acc. induction s as [|a s IH]; intros acc; simpl; [left; reflexivity|].
  destruct ((slot_job a =? job) && (acc <? slot_end a)) eqn:Hc.
  - apply andb_true_iff in Hc as [Hj _]. apply Z.eqb_eq in Hj.
    destruct (IH (slot_end a)) as [Heq|(sl & Hin & Hjob & Hend)].
    + right. exists a. split; [left|]. split; [exact Hj|]. symmetry. exact Heq.
    + right. exists sl. split; [right; exact Hin|]. auto.
  - destruct (IH acc) as [Heq|(sl & Hin & Hjob & Hend)]; [left; exact Heq|].
    right. exists sl. split; [right; exact Hin|]. auto.
Qed.

Lemma finish_time_outer_attained (job : Z) (ms : list schedule) (acc : Z) :
  let r := foldl (fun max_end schedule_in_machine =>
                    foldl (fun max_end sl =>
                             if (slot_job sl =? job) && (max_end <? slot_end sl)
                             then slot_end sl else max_end)
                          max_end schedule_in_machine) acc ms in
  r = acc
  \/ exists s sl, s ∈ ms /\ sl ∈ s /\ slot_job sl = job /\ slot_end sl = r.
Proof.
  revert acc. induction ms as [|a ms IH]; intros acc; simpl; [left; reflexivity|].
  match goal with |- context [foldl _ (foldl ?f acc a) ms] =>
    destruct (IH (foldl f acc a)) as [Heq|(s & sl & Hs & Hsl & Hjob & Hend)] end.
  - destruct (finish_time_inner_attained job a acc)
      as [Heq'|(sl & Hsl & Hjob & Hend)].
    + left. simpl in *. congruence.
    + right. exists a, sl. split; [left|]. split; [exact Hsl|].
      split; [exact Hjob|]. simpl in *. congruence.
  - right. exists s, sl. split; [right; exact Hs|]. auto.
Qed.

(** X2: the finish time of a job in a factory is not negative, is at
    least the end of every slot of the job on any machine of the factory,
    and is 0 or the end of one of the job's slots. *)
Theorem finish_time_is_latest_end (job : Z) (ms : list schedule) :
  0 <= finish_time_of_last_operation job ms
  /\ Forall (Forall (fun sl => slot_job sl = job ->
                           slot_end sl <= finish_time_of_last_operation job ms))
       ms
  /\ (finish_time_of_last_operation job ms = 0
      \/ exists s sl, s ∈ ms /\ sl ∈ s /\ slot_job sl = job
            /\ slot_end sl = finish_time_of_last_operation job ms).
Proof.
  split; [apply finish_time_nonneg|]. split.
  - apply Forall_forall. intros s Hs. apply Forall_forall. intros sl Hsl Hjob.
    eapply finish_time_bound; eassumption.
  - apply (finish_time_outer_attained job ms 0).
Qed.

(** ** The shape of the result *)

Lemma increment_counter_length (cnt cnt' : list nat) (gene : Z) :
  increment_counter cnt gene = Ok cnt' -> length cnt' = length cnt.
Proof.
  unfold increment_counter. intros H. inv_bind H.
  destruct (cnt !! a); [|discriminate]. injection H as <-.
  apply length_insert.
Qed.

Lemma schedule_gene_length (jobs : list (list (list Z)))
    (cnt cnt' : list nat) (ms ms' : list schedule) (gene : Z) :
  schedule_gene jobs (cnt, ms) gene = Ok (cnt', ms') ->
  length cnt' = length cnt /\ length ms' = length ms.
Proof.
  intros H. apply schedule_gene_Ok in H as (op & bm & m & s & _ & _ & -> & Hc).
  split; [eapply increment_counter_length; exact Hc|apply length_insert].
Qed.

Lemma single_factory_length (genome : list Z) (jobs : list (list (list Z)))
    (n_machines : Z) (fs : list schedule) :
  schedule_in_single_factory genome jobs n_machines = Ok fs ->
  length fs = Z.to_nat n_machines.
Proof.
  unfold schedule_in_single_factory. intros H. inv_bind H. injection H as <-.
  refine (schedule_genes_invariant jobs
            (fun ms => length ms = Z.to_nat n_machines) _ genome _ a _ Ha).
  - intros cnt ms gene cnt' ms' Hlen Hstep.
    apply schedule_gene_length in Hstep as [_ ->]. exact Hlen.
  - simpl. apply length_replicate.
Qed.

Lemma distribute_length (subgenomes subgenomes' : list (list Z))
    (pairs : list (Z * Z)) :
  distribute subgenomes pairs = Ok subgenomes' ->
  length subgenomes' = length subgenomes.
Proof.
  revert subgenomes. induction pairs as [|[op fac] rest IH]; intros sgs H.
  - injection H as <-. reflexivity.
  - simpl in H. inv_bind H. destruct (sgs !! a) as [sg|]; [|discriminate].
    rewrite (IH _ H). apply length_insert.
Qed.

(** X3: a returned global schedule has one factory schedule for each of
    the [n_factories] factories (none when the number is negative), and
    every factory schedule has one machine schedule for each of the
    [n_machines] machines. *)
Theorem global_schedule_shape (og fg : list Z) (jobs : list (list (list Z)))
    (n_machines n_factories : Z) (mk : Z) (gs : list (list schedule)) :
  schedule_in_multiple_factory og fg jobs n_machines n_factories = Ok (mk, gs) ->
  length gs = Z.to_nat n_factories
  /\ Forall (fun fs => length fs = Z.to_nat n_machines) gs.
Proof.
  intros H. apply multiple_factory_Ok in H as (sgs & Hd & Hall & _). split.
  - rewrite <- (Forall2_length _ _ _ Hall), (distribute_length _ _ _ Hd).
    apply length_replicate.
  - clear Hd. induction Hall as [|sg fs sgs gs Hsg _ IH]; constructor;
      [|exact IH].
    eapply single_factory_length. exact Hsg.
Qed.

(** X3 at the reference scenario: two factories of three machines. *)
Lemma global_schedule_shape_witness :
  exists mk gs,
    schedule_in_multiple_factory example_operation_genome
      example_factory_genome example_jobs 3 2 = Ok (mk, gs)
    /\ length gs = 2%nat
    /\ Forall (fun fs => length fs = 3%nat) gs.
Proof.
  eexists. eexists. split; [vm_compute; reflexivity|].
  apply (global_schedule_shape example_operation_genome
           example_factory_genome example_jobs 3 2 26).
  vm_compute. reflexivity.
Defined.

(** ** Where the slots come from *)

Lemma next_operation_job (jobs : list (list (list Z)))
    (cnt : list nat) (gene : Z) (operation : list Z) :
  next_operation jobs cnt gene = Ok operation ->
  exists job, getitem jobs gene = Ok job /\ operation ∈ job.
Proof.
  unfold next_operation. intros H. inv_bind H. inv_bind H.
  exists a. split; [exact Ha|].
  destruct (a !! a0) as [op|] eqn:Hop; [|discriminate].
  injection H as <-. eapply list_elem_of_lookup_2. exact Hop.
Qed.

Lemma schedule_genes_invariant_elem (jobs : list (list (list Z)))
    (P : list schedule -> Prop) (genome : list Z) :
  (forall cnt ms gene cnt' ms',
      gene ∈ genome -> P ms ->
      schedule_gene jobs (cnt, ms) gene = Ok (cnt', ms') -> P ms') ->
  forall (st st' : decoder_state),
    P (snd st) -> schedule_genes jobs st genome = Ok st' -> P (snd st').
Proof.
  induction genome as [|gene rest IH]; intros Hstep st st' HP Hrun.
  - injection Hrun as <-. exact HP.
  - simpl in Hrun. inv_bind Hrun. apply (IH ltac:(
      intros cnt ms g cnt' ms' Hg; apply Hstep; right; exact Hg) a st');
      [|exact Hrun].
    destruct st as [cnt ms], a as [cnt1 ms1].
    eapply (Hstep cnt ms gene); [left|exact HP|exact Ha].
Qed.

Lemma schedule_gene_slots (jobs : list (list (list Z))) (genome : list Z)
    (cnt cnt' : list nat) (ms ms' : list schedule) (gene : Z) :
  gene ∈ genome ->
  (forall m s sl, ms !! m = Some s -> sl ∈ s ->
     slot_of_table jobs genome m sl) ->
  schedule_gene jobs (cnt, ms) gene = Ok (cnt', ms') ->
  forall m s sl, ms' !! m = Some s -> sl ∈ s ->
    slot_of_table jobs genome m sl.
Proof.
  intros Hgene Hinv H m' s sl Hs Hsl.
  apply schedule_gene_commit in H as (op & m & t & cur & Hop & Ht & Hcur & ->).
  apply list_lookup_insert_Some in Hs as [(<- & <- & _)|(Hne & Hs)].
  - destruct (insert_perm t gene (finish_time_of_last_operation gene ms) cur)
      as (start & Hperm & Hstart).
    rewrite Hperm in Hsl. apply elem_of_cons in Hsl as [->|Hsl].
    + pose proof (finish_time_nonneg gene ms).
      apply next_operation_job in Hop as (job & Hjob & Hin).
      split; [exact Hgene|]. split; [simpl; lia|].
      exists job, op. split; [exact Hjob|]. split; [exact Hin|].
      simpl. rewrite Ht. f_equal. lia.
    + eapply Hinv; eassumption.
  - eapply Hinv; eassumption.
Qed.

Lemma single_factory_slots (genome : list Z) (jobs : list (list (list Z)))
    (n_machines : Z) (fs : list schedule) (m : nat) (s : schedule)
    (sl : slot) :
  schedule_in_single_factory genome jobs n_machines = Ok fs ->
  fs !! m = Some s -> sl ∈ s ->
  slot_of_table jobs genome m sl.
Proof.
  unfold schedule_in_single_factory. intros H. inv_bind H. injection H as <-.
  revert m s sl.
  refine (schedule_genes_invariant_elem jobs
            (fun ms => forall m s sl, ms !! m = Some s -> sl ∈ s ->
                         slot_of_table jobs genome m sl)
            genome _ _ a _ Ha).
  - intros cnt ms gene cnt' ms' Hg Hinv Hstep.
    eapply schedule_gene_slots; eassumption.
  - simpl. intros m s sl Hs Hsl. apply lookup_replicate in Hs as [-> _].
    apply elem_of_nil in Hsl. contradiction.
Qed.

Lemma genes_of_factory_elem (n_factories f : nat) (pairs : list (Z * Z))
    (gene : Z) :
  gene ∈ genes_of_factory n_factories f pairs ->
  exists fac, (gene, fac) ∈ pairs.
Proof.
  induction pairs as [|[op fac] rest IH]; simpl; intros Hin.
  - apply elem_of_nil in Hin. contradiction.
  - assert (Hrest : gene ∈ genes_of_factory n_factories f rest ->
                    exists fac0, (gene, fac0) ∈ (op, fac) :: rest).
    { intros Hg. destruct (IH Hg) as [fac0 Hfac0]. exists fac0. right.
      exact Hfac0. }
    destruct (py_index n_factories fac) as [idx|e]; [|auto].
    destruct (idx =? f)%nat; [|auto].
    apply elem_of_cons in Hin as [->|Hin]; [|auto]. exists fac. left.
Qed.

(** X4: every slot of a returned global schedule is labelled with a gene
    of the operation-genome, starts at or after time 0, and lasts as long
    as one operation of its job takes on the machine that holds the
    slot. *)
Theorem slots_come_from_the_table (og fg : list Z)
    (jobs : list (list (list Z))) (n_machines n_factories : Z) (mk : Z)
    (gs : list (list schedule)) (f m : nat) (fs : list schedule)
    (s : schedule) (sl : slot) :
  schedule_in_multiple_factory og fg jobs n_machines n_factories = Ok (mk, gs) ->
  gs !! f = Some fs -> fs !! m = Some s -> sl ∈ s ->
  slot_of_table jobs og m sl.
Proof.
  intros H Hf Hm Hsl.
  pose proof (multiple_factory_lookup _ _ _ _ _ _ _ _ _ H Hf) as Hfs.
  destruct (single_factory_slots _ _ _ _ _ _ _ Hfs Hm Hsl)
    as (Hgene & Hstart & Htable).
  split; [|split; assumption].
  apply genes_of_factory_elem in Hgene as [fac Hin].
  eapply elem_of_zip_l. exact Hin.
Qed.

(** X4 at the slot of job 1 on machine 1 of factory 0 in the reference
    scenario: seven time units, as its third operation takes there. *)
Lemma slots_come_from_the_table_witness :
  slot_of_table example_jobs example_operation_genome 1 (Slot 1 19 26).
Proof.
  apply (slots_come_from_the_table example_operation_genome
           example_factory_genome example_jobs 3 2 26
           [ [ [Slot 1 0 7; Slot 1 7 16];
               [Slot 2 9 19; Slot 1 19 26];
               [Slot 2 0 9; Slot 2 19 24] ];
             [ [Slot 0 0 7; Slot 0 7 9]; []; [] ] ]
           0 1
           [ [Slot 1 0 7; Slot 1 7 16];
             [Slot 2 9 19; Slot 1 19 26];
             [Slot 2 0 9; Slot 2 19 24] ]
           [Slot 2 9 19; Slot 1 19 26]).
  - vm_compute. reflexivity.
  - reflexivity.
  - reflexivity.
  - right. left.
Defined.

(** ** Genomes the decoder accepts *)

Lemma py_index_Ok_range (len : nat) (i : Z) (idx : nat) :
  py_index len i = Ok idx -> - Z.of_nat len <= i < Z.of_nat len.
Proof.
  unfold py_index.
  destruct ((0 <=? i) && (i <? Z.of_nat len)) eqn:H1.
  - intros _. apply andb_true_iff in H1 as [H0 H1].
    apply Z.leb_le in H0. apply Z.ltb_lt in H1. lia.
  - destruct ((- Z.of_nat len <=? i) && (i <? 0)) eqn:H2; [|discriminate].
    intros _. apply andb_true_iff in H2 as [H0 H2].
    apply Z.leb_le in H0. apply Z.ltb_lt in H2. lia.
Qed.

Lemma getitem_lookup {A : Type} (l : list A) (i : Z) (idx : nat) (x : A) :
  py_index (length l) i = Ok idx -> l !! idx = Some x -> getitem l i = Ok x.
Proof. intros Hi Hx. unfold getitem. rewrite Hi. simpl. rewrite Hx. reflexivity. Qed.

(** A gene that is scheduled addresses a job of the table whose counter
    is below the number of its operations, and advances that counter by
    one. *)
Lemma schedule_gene_counter (jobs : list (list (list Z)))
    (cnt cnt' : list nat) (ms ms' : list schedule) (gene : Z) :
  length cnt = length jobs ->
  schedule_gene jobs (cnt, ms) gene = Ok (cnt', ms') ->
  exists (idx c : nat) (job : list (list Z)),
    py_index (length jobs) gene = Ok idx
    /\ cnt !! idx = Some c
    /\ jobs !! idx = Some job
    /\ (c < length job)%nat
    /\ cnt' = <[idx := S c]> cnt.
Proof.
  intros Hlen H.
  apply schedule_gene_Ok in H as (op & bm & m & s & Hop & _ & _ & Hinc).
  unfold next_operation in Hop. inv_bind Hop. inv_bind Hop.
  rename a into job, a0 into c.
  apply getitem_Ok in Ha as (idx & Hidx & Hjob).
  apply getitem_Ok in Ha0 as (idx' & Hidx' & Hc).
  rewrite Hlen, Hidx in Hidx'. injection Hidx' as <-.
  unfold increment_counter in Hinc. rewrite Hlen, Hidx in Hinc. simpl in Hinc.
  rewrite Hc in Hinc. injection Hinc as <-.
  exists idx, c, job. repeat split; try assumption.
  destruct (job !! c) as [o|] eqn:Ho; [|discriminate].
  eapply lookup_lt_Some. exact Ho.
Qed.

Lemma schedule_genes_counters (jobs : list (list (list Z))) (genome : list Z)
    (cnt cnt' : list nat) (ms ms' : list schedule) :
  length cnt = length jobs ->
  (forall idx c job, cnt !! idx = Some c -> jobs !! idx = Some job ->
     (c <= length job)%nat) ->
  schedule_genes jobs (cnt, ms) genome = Ok (cnt', ms') ->
  Forall (fun gene => - Z.of_nat (length jobs) <= gene < Z.of_nat (length jobs))
    genome
  /\ forall idx c job, cnt !! idx = Some c -> jobs !! idx = Some job ->
       (c + occurrences (length jobs) idx genome <= length job)%nat.
Proof.
  revert cnt ms. induction genome as [|gene rest IH]; intros cnt ms Hlen Hb H.
  - split; [constructor|]. intros idx c job Hc Hjob. simpl.
    specialize (Hb idx c job Hc Hjob). lia.
  - simpl in H. inv_bind H. destruct a as [cnt1 ms1].
    destruct (schedule_gene_counter _ _ _ _ _ _ Hlen Ha)
      as (idx0 & c0 & job0 & Hidx & Hc0 & Hjob0 & Hlt & ->).
    destruct (IH (<[idx0 := S c0]> cnt) ms1) as [Hrange Hocc].
    + rewrite length_insert. exact Hlen.
    + intros idx c job Hc Hjob.
      apply list_lookup_insert_Some in Hc as [(<- & <- & _)|(Hne & Hc)].
      * rewrite Hjob0 in Hjob. injection Hjob as <-. lia.
      * eapply Hb; eassumption.
    + exact H.
    + split.
      * constructor; [eapply py_index_Ok_range; exact Hidx|exact Hrange].
      * intros idx c job Hc Hjob. simpl. rewrite Hidx.
        destruct (Nat.eqb_spec idx0 idx) as [->|Hne].
        -- rewrite Hc0 in Hc. injection Hc as <-.
           specialize (Hocc idx (S c0) job).
           rewrite list_lookup_insert_eq in Hocc
             by (eapply lookup_lt_Some; exact Hc0).
           specialize (Hocc eq_refl Hjob). lia.
        -- apply (Hocc idx c job); [|exact Hjob].
           rewrite list_lookup_insert_ne by exact Hne. exact Hc.
Qed.

(** X5: a genome that the single-factory decoder accepts addresses jobs
    of the table only (every gene lies in [[-n_jobs, n_jobs)]), and
    addresses no job more often than the job has operations. *)
Theorem accepted_genome_is_well_formed (genome : list Z)
    (jobs : list (list (list Z))) (n_machines : Z) (fs : list schedule) :
  schedule_in_single_factory genome jobs n_machines = Ok fs ->
  Forall (fun gene => - Z.of_nat (length jobs) <= gene < Z.of_nat (length jobs))
    genome
  /\ forall idx job, jobs !! idx = Some job ->
       (occurrences (length jobs) idx genome <= length job)%nat.
Proof.
  unfold schedule_in_single_factory. intros H. inv_bind H. clear H.
  destruct a as [cnt' ms'].
  assert (Hzero : forall idx c job,
             replicate (length jobs) 0%nat !! idx = Some c ->
             jobs !! idx = Some job -> (c <= length job)%nat).
  { intros idx c job Hc _. apply lookup_replicate in Hc as [-> _]. lia. }
  destruct (schedule_genes_counters jobs genome _ _ _ _
              (length_replicate _ _) Hzero Ha) as [Hrange Hocc].
  split; [exact Hrange|]. intros idx job Hjob.
  apply (Hocc idx 0%nat job); [|exact Hjob].
  apply lookup_replicate. split; [reflexivity|].
  eapply lookup_lt_Some. exact Hjob.
Qed.

(** X5 at factory 0 of the reference scenario. *)
Lemma accepted_genome_is_well_formed_witness :
  Forall (fun gene => - Z.of_nat (length example_jobs) <= gene
                      < Z.of_nat (length example_jobs))
    [2; 2; 1; 1; 1; 2]
  /\ forall idx job, example_jobs !! idx = Some job ->
       (occurrences (length example_jobs) idx [2; 2; 1; 1; 1; 2]%Z
        <= length job)%nat.
Proof.
  apply (accepted_genome_is_well_formed [2; 2; 1; 1; 1; 2] example_jobs 3
           [ [Slot 1 0 7; Slot 1 7 16];
             [Slot 2 9 19; Slot 1 19 26];
             [Slot 2 0 9; Slot 2 19 24] ]).
  vm_compute. reflexivity.
Defined.

(** ** Genomes that decode *)

Lemma schedule_genes_total (jobs : list (list (list Z))) (n_machines : Z)
    (genome : list Z) (cnt : list nat) (ms : list schedule) :
  jobs_fit_machines jobs n_machines ->
  length cnt = length jobs ->
  length ms = Z.to_nat n_machines ->
  Forall (fun gene => - Z.of_nat (length jobs) <= gene < Z.of_nat (length jobs))
    genome ->
  (forall idx c job, cnt !! idx = Some c -> jobs !! idx = Some job ->
     (c + occurrences (length jobs) idx genome <= length job)%nat) ->
  exists st', schedule_genes jobs (cnt, ms) genome = Ok st'.
Proof.
  intros Hfit. revert cnt ms.
  induction genome as [|gene rest IH]; intros cnt ms Hlen Hms Hrange Hocc.
  - eexists. reflexivity.
  - apply Forall_cons in Hrange as [Hgene Hrange].
    pose proof (py_index_in_range _ _ Hgene) as Hidx.
    set (idx := Z.to_nat (gene mod Z.of_nat (length jobs))) in *.
    pose proof (py_index_Ok _ _ _ Hidx) as Hlt.
    destruct (lookup_lt_is_Some_2 jobs idx Hlt) as [job Hjob].
    destruct (lookup_lt_is_Some_2 cnt idx ltac:(lia)) as [c Hc].
    pose proof (Hocc idx c job Hc Hjob) as Hbound.
    simpl in Hbound. rewrite Hidx, Nat.eqb_refl in Hbound.
    destruct (lookup_lt_is_Some_2 job c ltac:(lia)) as [op Hop].
    assert (Hnext : next_operation jobs cnt gene = Ok op).
    { unfold next_operation.
      rewrite (getitem_lookup jobs gene idx job Hidx Hjob). simpl.
      rewrite (getitem_lookup cnt gene idx c ltac:(rewrite Hlen; exact Hidx) Hc).
      simpl. rewrite Hop. reflexivity. }
    unfold jobs_fit_machines in Hfit. rewrite Forall_lookup in Hfit.
    specialize (Hfit idx job Hjob). rewrite Forall_lookup in Hfit.
    destruct (Hfit c op Hop) as [Hne Hlen_op].
    destruct (schedule_gene_total jobs cnt ms gene op Hnext Hne ltac:(lia))
      as (cnt1 & ms1 & Hstep).
    cbn [schedule_genes]. rewrite Hstep. cbn [bind].
    destruct (schedule_gene_counter _ _ _ _ _ _ Hlen Hstep)
      as (idx0 & c0 & job0 & Hidx0 & Hc0 & Hjob0 & _ & ->).
    rewrite Hidx in Hidx0. injection Hidx0 as <-.
    rewrite Hc in Hc0. injection Hc0 as <-.
    apply schedule_gene_length in Hstep as [_ Hms1].
    apply IH.
    + rewrite length_insert. exact Hlen.
    + lia.
    + exact Hrange.
    + intros i ci jobi Hci Hjobi.
      apply list_lookup_insert_Some in Hci as [(<- & <- & _)|(Hne' & Hci)].
      * rewrite Hjob in Hjobi. injection Hjobi as <-. lia.
      * specialize (Hocc i ci jobi Hci Hjobi). simpl in Hocc.
        rewrite Hidx in Hocc.
        destruct (Nat.eqb_spec idx i) as [Heq|_]; [congruence|exact Hocc].
Qed.

Lemma single_factory_total (genome : list Z)
    (jobs : list (list (list Z))) (n_machines : Z) :
  jobs_fit_machines jobs n_machines ->
  Forall (fun gene => - Z.of_nat (length jobs) <= gene < Z.of_nat (length jobs))
    genome ->
  (forall idx job, jobs !! idx = Some job ->
     (occurrences (length jobs) idx genome <= length job)%nat) ->
  exists fs, schedule_in_single_factory genome jobs n_machines = Ok fs.
Proof.
  intros Hfit Hrange Hocc. unfold schedule_in_single_factory.
  destruct (schedule_genes_total jobs n_machines genome
              (replicate (length jobs) 0%nat)
              (replicate (Z.to_nat n_machines) []) Hfit)
    as [st' ->].
  - apply length_replicate.
  - apply length_replicate.
  - exact Hrange.
  - intros idx c job Hc Hjob. apply lookup_replicate in Hc as [-> _].
    simpl. apply Hocc. exact Hjob.
  - simpl. eauto.
Qed.

(** X6: when every operation of the table has a processing time for at
    least one and at most [n_machines] machines, every gene addresses a
    job of the table, and no job is addressed more often than it has
    operations, the single-factory decoder returns a factory schedule. *)
Theorem well_formed_genome_is_decoded (genome : list Z)
    (jobs : list (list (list Z))) (n_machines : Z) :
  jobs_fit_machines jobs n_machines ->
  Forall (fun gene => - Z.of_nat (length jobs) <= gene < Z.of_nat (length jobs))
    genome ->
  (forall idx job, jobs !! idx = Some job ->
     (occurrences (length jobs) idx genome <= length job)%nat) ->
  exists fs, schedule_in_single_factory genome jobs n_machines = Ok fs.
Proof. apply single_factory_total. Qed.

Lemma example_jobs_fit_machines : jobs_fit_machines example_jobs 3.
Proof.
  unfold jobs_fit_machines, example_jobs.
  repeat (apply Forall_cons; split);
    try apply Forall_nil_2; (split; [discriminate|simpl; lia]).
Defined.

Lemma example_genome_in_range :
  Forall (fun gene => - Z.of_nat (length example_jobs) <= gene
                      < Z.of_nat (length example_jobs))
    example_operation_genome.
Proof.
  unfold example_operation_genome.
  repeat (apply Forall_cons; split; [simpl; lia|]). apply Forall_nil_2.
Defined.

Lemma example_genome_occurrences (idx : nat) (job : list (list Z)) :
  example_jobs !! idx = Some job ->
  (occurrences (length example_jobs) idx example_operation_genome
   <= length job)%nat.
Proof.
  destruct idx as [|[|[|idx]]]; simpl; intros [= <-]; simpl; lia.
Defined.

(** X6 at the whole operation-genome of the reference scenario, decoded
    in one factory. *)
Lemma well_formed_genome_is_decoded_witness :
  exists fs,
    schedule_in_single_factory example_operation_genome example_jobs 3 = Ok fs.
Proof.
  apply (well_formed_genome_is_decoded example_operation_genome example_jobs 3).
  - exact example_jobs_fit_machines.
  - exact example_genome_in_range.
  - exact example_genome_occurrences.
Defined.

Lemma distribute_total (subgenomes : list (list Z)) (pairs : list (Z * Z)) :
  (forall op fac, (op, fac) ∈ pairs ->
     - Z.of_nat (length subgenomes) <= fac < Z.of_nat (length subgenomes)) ->
  exists subgenomes', distribute subgenomes pairs = Ok subgenomes'.
Proof.
  revert subgenomes. induction pairs as [|[op fac] rest IH]; intros sgs Hr.
  - eexists. reflexivity.
  - simpl. rewrite (py_index_in_range _ _ (Hr op fac ltac:(left))). simpl.
    pose proof (py_index_Ok _ _ _
                  (py_index_in_range _ _ (Hr op fac ltac:(left)))) as Hlt.
    destruct (lookup_lt_is_Some_2 sgs _ Hlt) as [sg ->].
    apply IH. intros op' fac' Hin. rewrite length_insert.
    apply (Hr op'). right. exact Hin.
Qed.

Lemma decode_factories_total (subgenomes : list (list Z))
    (jobs : list (list (list Z))) (n_machines : Z) :
  Forall (fun sg => exists fs,
            schedule_in_single_factory sg jobs n_machines = Ok fs)
    subgenomes ->
  exists gs, decode_factories subgenomes jobs n_machines = Ok gs.
Proof.
  induction 1 as [|sg sgs [fs Hfs] _ [gs IH]]; [eexists; reflexivity|].
  simpl. rewrite Hfs. simpl. rewrite IH. simpl. eauto.
Qed.

Lemma occurrences_genes_of_factory (n_jobs idx n_factories f : nat)
    (og fg : list Z) :
  (occurrences n_jobs idx (genes_of_factory n_factories f (zip og fg))
   <= occurrences n_jobs idx og)%nat.
Proof.
  revert fg. induction og as [|op og IH]; intros fg; [simpl; lia|].
  destruct fg as [|fac fg]; [simpl; lia|].
  specialize (IH fg). simpl.
  assert (Hskip : (occurrences n_jobs idx
                     (genes_of_factory n_factories f (zip og fg))
                   <= match py_index n_jobs op with
                      | Ok i => if (i =? idx)%nat
                                then S (occurrences n_jobs idx og)
                                else occurrences n_jobs idx og
                      | Raise _ => occurrences n_jobs idx og
                      end)%nat).
  { destruct (py_index n_jobs op) as [i|e]; [destruct (i =? idx)%nat|]; lia. }
  destruct (py_index n_factories fac) as [i|e]; [|exact Hskip].
  destruct (i =? f)%nat; [|exact Hskip].
  simpl. destruct (py_index n_jobs op) as [j|e]; [destruct (j =? idx)%nat|]; lia.
Qed.

Lemma multiple_factory_total (og fg : list Z) (jobs : list (list (list Z)))
    (n_machines n_factories : Z) :
  jobs_fit_machines jobs n_machines ->
  0 < n_machines -> 0 < n_factories ->
  Forall (fun gene => - Z.of_nat (length jobs) <= gene < Z.of_nat (length jobs))
    og ->
  (forall op fac, (op, fac) ∈ zip og fg -> - n_factories <= fac < n_factories) ->
  (forall idx job, jobs !! idx = Some job ->
     (occurrences (length jobs) idx og <= length job)%nat) ->
  exists mk gs,
    schedule_in_multiple_factory og fg jobs n_machines n_factories = Ok (mk, gs).
Proof.
  intros Hfit Hnm Hnf Hrange Hfac Hocc. unfold schedule_in_multiple_factory.
  destruct (distribute_total (replicate (Z.to_nat n_factories) []) (zip og fg))
    as [sgs Hd].
  { intros op fac Hin. rewrite length_replicate, Z2Nat.id by lia.
    eapply Hfac. exact Hin. }
  rewrite Hd. simpl.
  destruct (decode_factories_total sgs jobs n_machines) as [gs Hgs].
  { apply Forall_lookup. intros f sg Hsg.
    rewrite (distribute_lookup _ _ _ f Hd), length_replicate in Hsg.
    destruct (replicate (Z.to_nat n_factories) [] !! f) as [e|] eqn:He;
      [|discriminate].
    apply lookup_replicate in He as [-> _]. simpl in Hsg. injection Hsg as <-.
    apply single_factory_total; [exact Hfit| |].
    - apply Forall_forall. intros gene Hgene.
      apply genes_of_factory_elem in Hgene as [fac Hin].
      rewrite Forall_forall in Hrange. apply Hrange.
      eapply elem_of_zip_l. exact Hin.
    - intros idx job Hjob. etransitivity; [|apply (Hocc idx job Hjob)].
      apply occurrences_genes_of_factory. }
  rewrite Hgs. simpl.
  pose proof (decode_factories_Forall2 _ _ _ _ Hgs) as Hall.
  pose proof (Forall2_length _ _ _ Hall) as Hlen.
  rewrite (distribute_length _ _ _ Hd), length_replicate in Hlen.
  destruct Hall as [|sg fs sgs gs Hfs Hall]; [simpl in Hlen; lia|].
  apply single_factory_length in Hfs.
  destruct fs as [|s fs]; [simpl in Hfs; lia|].
  cbn [concat app]. rewrite makespan_cons. cbn [bind]. eauto.
Qed.

(** X7: the orchestrator returns a makespan and a global schedule when
    there is at least one factory and one machine, every operation of the
    table has a processing time for at least one and at most [n_machines]
    machines, every gene addresses a job of the table, every factory
    value paired with a gene lies in [[-n_factories, n_factories)], and no
    job is addressed more often than it has operations. *)
Theorem well_formed_pair_is_decoded (og fg : list Z)
    (jobs : list (list (list Z))) (n_machines n_factories : Z) :
  jobs_fit_machines jobs n_machines ->
  0 < n_machines -> 0 < n_factories ->
  Forall (fun gene => - Z.of_nat (length jobs) <= gene < Z.of_nat (length jobs))
    og ->
  (forall op fac, (op, fac) ∈ zip og fg -> - n_factories <= fac < n_factories) ->
  (forall idx job, jobs !! idx = Some job ->
     (occurrences (length jobs) idx og <= length job)%nat) ->
  exists mk gs,
    schedule_in_multiple_factory og fg jobs n_machines n_factories = Ok (mk, gs).
Proof. apply multiple_factory_total. Qed.

(** X7 at the reference scenario. *)
Lemma well_formed_pair_is_decoded_witness :
  exists mk gs,
    schedule_in_multiple_factory example_operation_genome
      example_factory_genome example_jobs 3 2 = Ok (mk, gs).
Proof.
  apply (well_formed_pair_is_decoded example_operation_genome
           example_factory_genome example_jobs 3 2).
  - exact example_jobs_fit_machines.
  - lia.
  - lia.
  - exact example_genome_in_range.
  - intros op fac Hin. apply elem_of_zip_r in Hin.
    unfold example_factory_genome in Hin.
    repeat (apply elem_of_cons in Hin as [->|Hin]; [lia|]).
    apply elem_of_nil in Hin. contradiction.
  - exact example_genome_occurrences.
Defined.

(** ** The empty genome *)

Lemma decode_factories_empty (n : nat) (jobs : list (list (list Z)))
    (n_machines : Z) :
  decode_factories (replicate n []) jobs n_machines
  = Ok (replicate n (replicate (Z.to_nat n_machines) [])).
Proof.
  induction n as [|n IH]; [reflexivity|].
  simpl. rewrite IH. reflexivity.
Qed.

Lemma makespan_all_empty (n : nat) :
  makespan (replicate (S n) []) = Ok 0.
Proof.
  rewrite makespan_finish_times. apply py_max_spec. split; [left|].
  intros x Hx. apply list_elem_of_fmap in Hx as (s & -> & Hs).
  apply elem_of_replicate in Hs as [-> _]. reflexivity.
Qed.

Lemma concat_replicate_replicate {A : Type} (n m : nat) (x : A) :
  concat (replicate n (replicate m x)) = replicate (n * m) x.
Proof.
  induction n as [|n IH]; [reflexivity|].
  simpl. rewrite IH, replicate_add. reflexivity.
Qed.

(** X8: on an empty operation-genome the orchestrator returns the makespan
    0 and a global schedule of empty machine schedules when there is at
    least one factory and at least one machine, and raises [ValueError]
    (the maximum of no finish time) otherwise. *)
Theorem empty_genome_decodes (fg : list Z) (jobs : list (list (list Z)))
    (n_machines n_factories : Z) :
  schedule_in_multiple_factory [] fg jobs n_machines n_factories
  = if (0 <? n_factories) && (0 <? n_machines)
    then Ok (0, replicate (Z.to_nat n_factories)
                  (replicate (Z.to_nat n_machines) []))
    else Raise ValueError.
Proof.
  unfold schedule_in_multiple_factory. simpl.
  rewrite decode_factories_empty. simpl.
  rewrite concat_replicate_replicate.
  destruct ((0 <? n_factories) && (0 <? n_machines)) eqn:Hpos.
  - apply andb_true_iff in Hpos as [Hf Hm].
    apply Z.ltb_lt in Hf. apply Z.ltb_lt in Hm.
    destruct (Z.to_nat n_factories * Z.to_nat n_machines)%nat as [|k] eqn:Hk;
      [lia|].
    rewrite makespan_all_empty. reflexivity.
  - replace (Z.to_nat n_factories * Z.to_nat n_machines)%nat with 0%nat;
      [reflexivity|].
    apply andb_false_iff in Hpos as [Hpos|Hpos]; apply Z.ltb_ge in Hpos; lia.
Qed.

Lemma slots_of_table_start (og fg : list Z) (jobs : list (list (list Z)))
    (n_machines n_factories : Z) (mk : Z) (gs : list (list schedule))
    (f m : nat) (fs : list schedule) (s : schedule) (sl : slot) :
  schedule_in_multiple_factory og fg jobs n_machines n_factories = Ok (mk, gs) ->
  gs !! f = Some fs -> fs !! m = Some s -> sl ∈ s ->
  0 <= slot_start sl.
Proof.
  intros H Hf Hm Hsl.
  pose proof (multiple_factory_lookup _ _ _ _ _ _ _ _ _ H Hf) as Hfs.
  destruct (single_factory_slots _ _ _ _ _ _ _ Hfs Hm Hsl) as (_ & Hstart & _).
  exact Hstart.
Qed.

(** ** The makespan and the slots *)

Lemma elem_of_concat {A : Type} (x : A) (ls : list (list A)) :
  x ∈ concat ls <-> exists l, x ∈ l /\ l ∈ ls.
Proof.
  induction ls as [|a ls IH]; simpl.
  - split; [intros H; apply elem_of_nil in H; contradiction|].
    intros (l & _ & H). apply elem_of_nil in H. contradiction.
  - rewrite elem_of_app, IH. split.
    + intros [H|(l & Hx & Hl)]; [exists a; split; [exact H|left]|].
      exists l. split; [exact Hx|right; exact Hl].
    + intros (l & Hx & Hl). apply elem_of_cons in Hl as [->|Hl];
        [left; exact Hx|right; eauto].
Qed.

Lemma chained_ends (lo : Z) (s : schedule) (sl : slot) :
  chained lo s -> sl ∈ s -> slot_end sl <= last_end lo s.
Proof.
  revert lo. induction s as [|a s IH]; intros lo Hc Hin.
  - apply elem_of_nil in Hin. contradiction.
  - destruct Hc as (_ & _ & Hc). rewrite last_end_cons.
    apply elem_of_cons in Hin as [->|Hin].
    + apply chained_last_end. exact Hc.
    + apply IH; assumption.
Qed.

Lemma valid_schedule_ends (s : schedule) (sl : slot) :
  valid_schedule s -> sl ∈ s -> slot_end sl <= finish_of s.
Proof.
  intros Hv Hin. destruct (valid_chained s Hv) as [lo Hc].
  pose proof (chained_ends lo s sl Hc Hin) as Hle.
  destruct s as [|a s]; [apply elem_of_nil in Hin; contradiction|].
  rewrite finish_of_last_end, last_end_cons. rewrite last_end_cons in Hle.
  exact Hle.
Qed.

Lemma finish_of_attained (s : schedule) :
  finish_of s = 0 \/ exists sl, sl ∈ s /\ slot_end sl = finish_of s.
Proof.
  unfold finish_of. destruct (last s) as [sl|] eqn:Hlast; [|left; reflexivity].
  right. exists sl. split; [|reflexivity].
  apply last_Some in Hlast as [l' ->]. apply elem_of_app. right. left.
Qed.

(** X9: on a job table of positive processing times the returned makespan
    is not negative, no slot of the global schedule ends after it, and it
    is 0 or the end of one of the slots. *)
Theorem makespan_is_latest_end (og fg : list Z) (jobs : list (list (list Z)))
    (n_machines n_factories : Z) (mk : Z) (gs : list (list schedule)) :
  jobs_positive jobs ->
  schedule_in_multiple_factory og fg jobs n_machines n_factories = Ok (mk, gs) ->
  0 <= mk
  /\ Forall (Forall (Forall (fun sl => slot_end sl <= mk))) gs
  /\ (mk = 0
      \/ exists fs s sl, fs ∈ gs /\ s ∈ fs /\ sl ∈ s /\ slot_end sl = mk).
Proof.
  intros Hpos H.
  pose proof (multiple_factory_valid _ _ _ _ _ _ _ Hpos H) as Hvalid.
  pose proof H as Hmk. apply multiple_factory_Ok in Hmk as (_ & _ & _ & Hmk).
  rewrite makespan_finish_times in Hmk. apply py_max_spec in Hmk as [Hin Hup].
  assert (Hat : mk = 0
            \/ exists fs s sl, fs ∈ gs /\ s ∈ fs /\ sl ∈ s /\ slot_end sl = mk).
  { apply list_elem_of_fmap in Hin as (s & -> & Hs).
    apply elem_of_concat in Hs as (fs & Hs & Hfs).
    destruct (finish_of_attained s) as [Hz|(sl & Hsl & Hend)]; [left; exact Hz|].
    right. exists fs, s, sl. auto. }
  split; [|split; [|exact Hat]].
  - destruct Hat as [->|(fs & s & sl & Hfs & Hs & Hsl & <-)]; [lia|].
    apply list_elem_of_lookup in Hfs as [f Hf].
    apply list_elem_of_lookup in Hs as [m Hm].
    pose proof (slots_of_table_start _ _ _ _ _ _ _ f m fs s sl H Hf Hm Hsl)
      as Hstart.
    rewrite Forall_forall in Hvalid. specialize (Hvalid fs ltac:(
      eapply list_elem_of_lookup_2; exact Hf)).
    rewrite Forall_forall in Hvalid. specialize (Hvalid s ltac:(
      eapply list_elem_of_lookup_2; exact Hm)).
    destruct Hvalid as (Hok & _). rewrite Forall_forall in Hok.
    specialize (Hok sl Hsl). unfold slot_ok in Hok. lia.
  - apply Forall_forall. intros fs Hfs. apply Forall_forall. intros s Hs.
    apply Forall_forall. intros sl Hsl.
    rewrite Forall_forall in Hvalid. specialize (Hvalid fs Hfs).
    rewrite Forall_forall in Hvalid. specialize (Hvalid s Hs).
    pose proof (valid_schedule_ends s sl Hvalid Hsl).
    assert (finish_of s <= mk); [|lia].
    apply Hup. apply list_elem_of_fmap_2. apply elem_of_concat.
    exists fs. auto.
Qed.

(** X9 at the reference scenario, whose makespan is 26. *)
Lemma makespan_is_latest_end_witness :
  exists gs,
    schedule_in_multiple_factory example_operation_genome
      example_factory_genome example_jobs 3 2 = Ok (26, gs)
    /\ 0 <= 26
    /\ Forall (Forall (Forall (fun sl => slot_end sl <= 26))) gs
    /\ (26 = 0
        \/ exists fs s sl, fs ∈ gs /\ s ∈ fs /\ sl ∈ s /\ slot_end sl = 26).
Proof.
  eexists. split; [vm_compute; reflexivity|].
  apply (makespan_is_latest_end example_operation_genome
           example_factory_genome example_jobs 3 2);
    [exact example_jobs_positive|].
  vm_compute. reflexivity.
Defined.

(** ** The makespan after a gene *)

Lemma makespan_cons_ge (s : schedule) (ms : list schedule) (v v0 : Z) :
  makespan (s :: ms) = Ok v -> makespan ms = Ok v0 -> v0 <= v.
Proof.
  rewrite !makespan_finish_times, !py_max_spec. intros [_ Hup] [Hin _].
  apply Hup. right. exact Hin.
Qed.

(** X10: when the processing times of the operation of a gene are not
    negative, the makespan of the factory after the gene is scheduled is
    the least of the trial makespans of the machines of the operation, and
    it is not below the makespan before. *)
Theorem committed_makespan_is_least_trial (jobs : list (list (list Z)))
    (cnt cnt' : list nat) (ms ms' : list schedule) (gene : Z)
    (operation : list Z) :
  next_operation jobs cnt gene = Ok operation ->
  Forall (fun t => 0 <= t) operation ->
  schedule_gene jobs (cnt, ms) gene = Ok (cnt', ms') ->
  exists v,
    makespan ms' = Ok v
    /\ (exists m t s, operation !! m = Some t
          /\ try_machine gene (finish_time_of_last_operation gene ms) ms m t
             = Ok (s, v))
    /\ (forall m t s v',
          operation !! m = Some t ->
          try_machine gene (finish_time_of_last_operation gene ms) ms m t
          = Ok (s, v') ->
          v <= v')
    /\ (forall v0, makespan ms = Ok v0 -> v0 <= v).
Proof.
  intros Hop Hnn H.
  apply schedule_gene_Ok in H as (op & bm & m & s & Hop' & Hsel & -> & _).
  rewrite Hop in Hop'. injection Hop' as <-.
  apply select_machine_spec in Hsel. simpl in Hsel.
  destruct Hsel as (_ & (t & Ht & Htry) & Hall).
  pose proof Htry as Htry0.
  apply try_machine_Ok in Htry as (cur & Hcur & -> & Hmk).
  rewrite Forall_lookup in Hnn. pose proof (Hnn m t Ht) as Htpos. simpl in Htpos.
  exists bm. split; [|split; [|split]].
  - eapply makespan_substitute; [exact Hcur| |exact Hmk].
    apply insert_finish_of; [exact Htpos|apply finish_time_nonneg].
  - exists m, t. eexists. split; [exact Ht|exact Htry0].
  - intros m' t' s' v' Ht' Htry'.
    apply (Hall m' t' s' v'); [|exact Ht'|exact Htry'].
    eapply lookup_lt_Some. exact Ht'.
  - intros v0 Hv0. eapply makespan_cons_ge; eassumption.
Qed.

(** X10 in the reference scenario: the first operation of job 1 after the
    two operations of job 2 in factory 0. *)
Lemma committed_makespan_is_least_trial_witness :
  exists v,
    makespan [[Slot 1 0 7]; [Slot 2 9 19]; [Slot 2 0 9]] = Ok v
    /\ (exists m t s, [7; 6; 10] !! m = Some t
          /\ try_machine 1
               (finish_time_of_last_operation 1
                  [[]; [Slot 2 9 19]; [Slot 2 0 9]])
               [[]; [Slot 2 9 19]; [Slot 2 0 9]] m t
             = Ok (s, v))
    /\ (forall m t s v',
          [7; 6; 10] !! m = Some t ->
          try_machine 1
            (finish_time_of_last_operation 1
               [[]; [Slot 2 9 19]; [Slot 2 0 9]])
            [[]; [Slot 2 9 19]; [Slot 2 0 9]] m t
          = Ok (s, v') ->
          v <= v')
    /\ (forall v0,
          makespan [[]; [Slot 2 9 19]; [Slot 2 0 9]] = Ok v0 -> v0 <= v).
Proof.
  apply (committed_makespan_is_least_trial example_jobs [0; 0; 2]%nat
           [0; 1; 2]%nat [[]; [Slot 2 9 19]; [Slot 2 0 9]]
           [[Slot 1 0 7]; [Slot 2 9 19]; [Slot 2 0 9]] 1 [7; 6; 10]).
  - reflexivity.
  - repeat (apply Forall_cons; split; [lia|]). apply Forall_nil_2.
  - reflexivity.
Defined.

(** ** The makespan and the processing times *)

Lemma duration_app (a b : schedule) :
  duration (a ++ b) = duration a + duration b.
Proof.
  unfold duration. induction a as [|sl a IH]; simpl; [reflexivity|].
  rewrite IH. lia.
Qed.

Lemma duration_insert_middle (s : schedule) (index : nat) (sl : slot) :
  duration (take index s ++ sl :: drop index s)
  = duration s + (slot_end sl - slot_start sl).
Proof.
  rewrite duration_app. rewrite <- (take_drop index s) at 3.
  rewrite duration_app. unfold duration at 2. simpl.
  fold (duration (drop index s)). lia.
Qed.

Lemma duration_concat_insert (ms : list schedule) (m : nat)
    (cur new : schedule) :
  ms !! m = Some cur ->
  duration (concat (<[m := new]> ms))
  = duration (concat ms) - duration cur + duration new.
Proof.
  revert m. induction ms as [|s ms IH]; intros m Hm; [discriminate|].
  destruct m as [|m]; simpl in *.
  - injection Hm as ->. rewrite !duration_app. lia.
  - rewrite !duration_app, (IH m Hm). lia.
Qed.

Lemma place_start_bound (time job ft prev_end bound : Z) (s : schedule) :
  ft <= bound -> prev_end <= bound ->
  Forall (fun sl => slot_end sl <= bound) s ->
  exists (index : nat) (start : Z),
    place time job ft prev_end s
    = take index s ++ Slot job start (start + time) :: drop index s
    /\ start <= bound.
Proof.
  intros Hft. revert prev_end. induction s as [|sl s IH]; intros prev_end Hp Hs.
  - exists 0%nat, (Z.max ft prev_end). split; [reflexivity|lia].
  - cbn [place]. apply Forall_cons in Hs as [Hsl Hs].
    destruct ((ft <? slot_start sl)
              && (time <=? slot_start sl - Z.max ft prev_end)).
    + exists 0%nat, (Z.max ft prev_end). split; [reflexivity|lia].
    + destruct (IH (slot_end sl) Hsl Hs) as (index & start & -> & Hle).
      exists (S index), start. split; [reflexivity|exact Hle].
Qed.

Lemma insert_start_bound (time job ft bound : Z) (s : schedule) :
  ft <= bound -> 0 <= bound ->
  Forall (fun sl => slot_end sl <= bound) s ->
  exists (index : nat) (start : Z),
    insert_operation_to_schedule time job ft s
    = take index s ++ Slot job start (start + time) :: drop index s
    /\ start <= bound.
Proof.
  intros Hft Hb Hs. destruct s as [|sl s].
  - exists 0%nat, ft. split; [reflexivity|exact Hft].
  - rewrite insert_place. apply place_start_bound; assumption.
Qed.

Lemma finish_time_le_bound (job : Z) (ms : list schedule) (bound : Z) :
  0 <= bound ->
  (forall s sl, s ∈ ms -> sl ∈ s -> slot_end sl <= bound) ->
  finish_time_of_last_operation job ms <= bound.
Proof.
  intros Hb Hall.
  destruct (finish_time_outer_attained job ms 0)
    as [Hz|(s & sl & Hs & Hsl & _ & Hend)].
  - unfold finish_time_of_last_operation. simpl in Hz. lia.
  - unfold finish_time_of_last_operation. simpl in Hend.
    specialize (Hall s sl Hs Hsl). lia.
Qed.

(** Every slot of a factory ends by the sum of the lengths of the slots
    of the factory. *)
Lemma schedule_gene_duration (jobs : list (list (list Z)))
    (cnt cnt' : list nat) (ms ms' : list schedule) (gene : Z) :
  jobs_positive jobs ->
  (0 <= duration (concat ms)
   /\ forall s sl, s ∈ ms -> sl ∈ s -> slot_end sl <= duration (concat ms)) ->
  schedule_gene jobs (cnt, ms) gene = Ok (cnt', ms') ->
  0 <= duration (concat ms')
  /\ forall s sl, s ∈ ms' -> sl ∈ s -> slot_end sl <= duration (concat ms').
Proof.
  intros Hpos [HD Hinv] H.
  apply schedule_gene_commit in H as (op & m & t & cur & Hop & Ht & Hcur & ->).
  apply next_operation_elem_of in Hop as (job & Hjob & Hop).
  unfold jobs_positive in Hpos. rewrite Forall_forall in Hpos.
  specialize (Hpos job Hjob). rewrite Forall_forall in Hpos.
  specialize (Hpos op Hop). rewrite Forall_lookup in Hpos.
  specialize (Hpos m t Ht). simpl in Hpos.
  assert (Hcur_in : cur ∈ ms) by (eapply list_elem_of_lookup_2; exact Hcur).
  destruct (insert_start_bound t gene (finish_time_of_last_operation gene ms)
              (duration (concat ms)) cur)
    as (index & start & Heq & Hstart).
  { apply finish_time_le_bound; assumption. }
  { exact HD. }
  { apply Forall_forall. intros sl Hsl. eapply Hinv; eassumption. }
  rewrite Heq, (duration_concat_insert ms m cur _ Hcur), duration_insert_middle.
  simpl. split; [lia|]. intros s sl Hs Hsl.
  apply list_elem_of_lookup in Hs as [k Hk].
  apply list_lookup_insert_Some in Hk as [(<- & <- & _)|(Hne & Hk)].
  - apply elem_of_app in Hsl as [Hsl|Hsl].
    + pose proof (elem_of_sublist _ _ _ Hsl (sublist_take cur index)) as Hin.
      specialize (Hinv cur sl Hcur_in Hin). lia.
    + apply elem_of_cons in Hsl as [->|Hsl]; [simpl; lia|].
      pose proof (elem_of_sublist _ _ _ Hsl (sublist_drop cur index)) as Hin.
      specialize (Hinv cur sl Hcur_in Hin). lia.
  - assert (Hs : s ∈ ms) by (eapply list_elem_of_lookup_2; exact Hk).
    specialize (Hinv s sl Hs Hsl). lia.
Qed.

Lemma single_factory_duration (genome : list Z) (jobs : list (list (list Z)))
    (n_machines : Z) (fs : list schedule) :
  jobs_positive jobs ->
  schedule_in_single_factory genome jobs n_machines = Ok fs ->
  0 <= duration (concat fs)
  /\ forall s sl, s ∈ fs -> sl ∈ s -> slot_end sl <= duration (concat fs).
Proof.
  intros Hpos H. unfold schedule_in_single_factory in H. inv_bind H.
  injection H as <-.
  refine (schedule_genes_invariant jobs
            (fun ms => 0 <= duration (concat ms)
                       /\ forall s sl, s ∈ ms -> sl ∈ s ->
                            slot_end sl <= duration (concat ms))
            _ genome _ a _ Ha).
  - intros cnt ms gene cnt' ms'. apply schedule_gene_duration. exact Hpos.
  - simpl. rewrite concat_replicate_nil. split; [reflexivity|].
    intros s sl Hs Hsl. apply elem_of_replicate in Hs as [-> _].
    apply elem_of_nil in Hsl. contradiction.
Qed.

Lemma duration_factory_le (gs : list (list schedule)) (fs : list schedule) :
  Forall (fun fs => 0 <= duration (concat fs)) gs ->
  fs ∈ gs ->
  0 <= total_duration gs /\ duration (concat fs) <= total_duration gs.
Proof.
  unfold total_duration. induction 1 as [|a gs Ha Hgs IH]; intros Hin.
  - apply elem_of_nil in Hin. contradiction.
  - change (concat (a :: gs)) with (a ++ concat gs).
    rewrite concat_app, duration_app.
    assert (Hnn : 0 <= duration (concat (concat gs))).
    { clear IH Hin. induction Hgs as [|b gs Hb _ IH]; [reflexivity|].
      change (concat (b :: gs)) with (b ++ concat gs).
      rewrite concat_app, duration_app. lia. }
    apply elem_of_cons in Hin as [->|Hin]; [lia|].
    destruct (IH Hin). lia.
Qed.

(** X11: on a job table of positive processing times the returned makespan
    is at most the sum of the lengths of all slots of the global schedule,
    that is, of the processing times of the operations on the machines
    chosen for them. *)
Theorem makespan_at_most_total_duration (og fg : list Z)
    (jobs : list (list (list Z))) (n_machines n_factories : Z) (mk : Z)
    (gs : list (list schedule)) :
  jobs_positive jobs ->
  schedule_in_multiple_factory og fg jobs n_machines n_factories = Ok (mk, gs) ->
  mk <= total_duration gs.
Proof.
  intros Hpos H. apply multiple_factory_Ok in H as (sgs & _ & Hall & Hmk).
  assert (Hdur : Forall (fun fs =>
                           0 <= duration (concat fs)
                           /\ forall s sl, s ∈ fs -> sl ∈ s ->
                                slot_end sl <= duration (concat fs)) gs).
  { clear Hmk. induction Hall as [|sg fs sgs gs Hsg _ IH]; constructor;
      [|exact IH].
    eapply single_factory_duration; eassumption. }
  rewrite makespan_finish_times in Hmk. apply py_max_spec in Hmk as [Hin _].
  apply list_elem_of_fmap in Hin as (s & -> & Hs).
  apply elem_of_concat in Hs as (fs & Hs & Hfs).
  assert (Hnn : Forall (fun fs => 0 <= duration (concat fs)) gs).
  { eapply Forall_impl; [exact Hdur|]. simpl. tauto. }
  destruct (duration_factory_le gs fs Hnn Hfs) as [Htot Hle].
  destruct (finish_of_attained s) as [->|(sl & Hsl & <-)]; [exact Htot|].
  rewrite Forall_forall in Hdur. destruct (Hdur fs Hfs) as [_ Hends].
  specialize (Hends s sl Hs Hsl). lia.
Qed.

(** X11 at the reference scenario: the makespan 26 against 56 time units
    of work. *)
Lemma makespan_at_most_total_duration_witness :
  exists gs,
    schedule_in_multiple_factory example_operation_genome
      example_factory_genome example_jobs 3 2 = Ok (26, gs)
    /\ total_duration gs = 56
    /\ 26 <= total_duration gs.
Proof.
  eexists. split; [vm_compute; reflexivity|]. split; [vm_compute; reflexivity|].
  apply (makespan_at_most_total_duration example_operation_genome
           example_factory_genome example_jobs 3 2);
    [exact example_jobs_positive|].
  vm_compute. reflexivity.
Defined.

(** ** The sub-genomes *)

Lemma concat_insert_snoc {A : Type} (ls : list (list A)) (i : nat)
    (l : list A) (x : A) :
  ls !! i = Some l -> concat (<[i := l ++ [x]]> ls) ≡ₚ x :: concat ls.
Proof.
  revert i. induction ls as [|a ls IH]; intros i Hi; [discriminate|].
  destruct i as [|i]; simpl in *.
  - injection Hi as ->. rewrite <- (assoc_L (++)). simpl.
    rewrite <- Permutation_middle. reflexivity.
  - rewrite (IH i Hi). rewrite <- Permutation_middle. reflexivity.
Qed.

Lemma distribute_perm (subgenomes subgenomes' : list (list Z))
    (pairs : list (Z * Z)) :
  distribute subgenomes pairs = Ok subgenomes' ->
  concat subgenomes' ≡ₚ concat subgenomes ++ pairs.*1.
Proof.
  revert subgenomes. induction pairs as [|[op fac] rest IH]; intros sgs H.
  - injection H as <-. simpl. rewrite app_nil_r. reflexivity.
  - simpl in H. inv_bind H. destruct (sgs !! a) as [sg|] eqn:Hsg; [|discriminate].
    rewrite (IH _ H), (concat_insert_snoc sgs a sg op Hsg). simpl.
    rewrite <- Permutation_middle. reflexivity.
Qed.

Lemma genes_of_factory_sublist (n_factories f : nat) (og fg : list Z) :
  genes_of_factory n_factories f (zip og fg) `sublist_of` og.
Proof.
  revert fg. induction og as [|op og IH]; intros fg; [constructor|].
  destruct fg as [|fac fg]; [apply sublist_nil_l|].
  simpl. destruct (py_index n_factories fac) as [idx|e];
    [destruct (idx =? f)%nat|].
  - apply sublist_skip, IH.
  - apply sublist_cons, IH.
  - apply sublist_cons, IH.
Qed.

Lemma fst_zip_take (og fg : list Z) : (zip og fg).*1 = take (length fg) og.
Proof.
  revert fg. induction og as [|op og IH]; intros [|fac fg]; simpl;
    try reflexivity.
  rewrite IH. reflexivity.
Qed.

(** X12: when the genes are distributed over [n] factories without an
    error, there are [n] sub-genomes, each of them is a subsequence of the
    operation-genome (the order of the genes is kept), and together they
    hold exactly the genes that are paired with a factory value, each
    once. *)
Theorem subgenomes_partition_the_genome (og fg : list Z) (n : nat)
    (subgenomes : list (list Z)) :
  distribute (replicate n []) (zip og fg) = Ok subgenomes ->
  length subgenomes = n
  /\ Forall (fun sg => sg `sublist_of` og) subgenomes
  /\ concat subgenomes ≡ₚ take (length fg) og.
Proof.
  intros H. split; [|split].
  - rewrite (distribute_length _ _ _ H). apply length_replicate.
  - apply Forall_lookup. intros f sg Hsg.
    rewrite (distribute_lookup _ _ _ f H), length_replicate in Hsg.
    destruct (replicate n [] !! f) as [e|] eqn:He; [|discriminate].
    apply lookup_replicate in He as [-> _]. simpl in Hsg. injection Hsg as <-.
    apply genes_of_factory_sublist.
  - rewrite (distribute_perm _ _ _ H), concat_replicate_nil, fst_zip_take.
    reflexivity.
Qed.

(** X12 at the reference scenario. *)
Lemma subgenomes_partition_the_genome_witness :
  distribute (replicate 2 []) (zip example_operation_genome
                                 example_factory_genome)
  = Ok [[2; 2; 1; 1; 1; 2]; [0; 0]]
  /\ length [[2; 2; 1; 1; 1; 2]; [0; 0]] = 2%nat
  /\ Forall (fun sg => sg `sublist_of` example_operation_genome)
       [[2; 2; 1; 1; 1; 2]; [0; 0]]
  /\ concat [[2; 2; 1; 1; 1; 2]; [0; 0]]
     ≡ₚ take (length example_factory_genome) example_operation_genome.
Proof.
  split; [reflexivity|].
  apply (subgenomes_partition_the_genome example_operation_genome
           example_factory_genome 2).
  reflexivity.
Defined.

(** ** dec2color *)

Module ColorFacts.
Import Stdlib.Strings.String Stdlib.Strings.Ascii.
Import Color.
#[local] Open Scope string_scope.

Lemma raw_of_pos_length_le :
  forall (p : positive) (rest : string) (k : nat),
    Z.pos p < 16 ^ Z.of_nat k ->
    (length (HexString.Raw.of_pos p rest) <= k + length rest)%nat.
Proof.
  fix IH 1. intros p rest k Hk.
  destruct k as [|k]; [simpl in Hk; lia|].
  rewrite Nat2Z.inj_succ, Z.pow_succ_r in Hk by lia.
  do 4 try destruct p as [p|p|]; cbn [HexString.Raw.of_pos length];
    try lia;
    (etransitivity; [apply (IH p _ k); lia|cbn [length]; lia]).
Qed.

Lemma raw_of_pos_length_ge :
  forall (p : positive) (rest : string) (k : nat),
    16 ^ Z.of_nat k <= Z.pos p ->
    (S k + length rest <= length (HexString.Raw.of_pos p rest))%nat.
Proof.
  fix IH 1. intros p rest k Hk.
  assert (Hbase : forall q r, (S (length r) <= length (HexString.Raw.of_pos q r))%nat).
  { clear -IH. intros q r. etransitivity; [|apply (IH q r 0%nat); simpl; lia].
    simpl. lia. }
  destruct k as [|k].
  - do 4 try destruct p as [p|p|]; cbn [HexString.Raw.of_pos length];
      try lia; (etransitivity; [|apply Hbase]; cbn [length]; lia).
  - rewrite Nat2Z.inj_succ, Z.pow_succ_r in Hk by lia.
    pose proof (Z.pow_pos_nonneg 16 (Z.of_nat k) ltac:(lia) ltac:(lia)).
    do 4 try destruct p as [p|p|]; cbn [HexString.Raw.of_pos length];
      try lia;
      (etransitivity; [|apply (IH p _ k); lia]; cbn [length]; lia).
Qed.
Lemma length_append (a b : string) :
  length (append a b) = (length a + length b)%nat.
Proof. induction a as [|c a IH]; simpl; [reflexivity|]. rewrite IH. reflexivity. Qed.

Lemma length_copies_zero (n : nat) : length (copies n "0") = n.
Proof. induction n as [|n IH]; simpl; [reflexivity|]. rewrite IH. reflexivity. Qed.

Lemma made_of_append (chars a b : string) :
  made_of chars a -> made_of chars b -> made_of chars (append a b).
Proof.
  induction a as [|c a IH]; simpl; [tauto|]. intros [Hc Ha] Hb. auto.
Qed.

Lemma made_of_copies_zero (n : nat) :
  made_of "0123456789abcdef" (copies n "0").
Proof. induction n as [|n IH]; simpl; [exact I|]. split; [tauto|exact IH]. Qed.

Lemma raw_of_pos_made_of :
  forall (p : positive) (rest : string),
    made_of "0123456789abcdef" rest ->
    made_of "0123456789abcdef" (HexString.Raw.of_pos p rest).
Proof.
  fix IH 1. intros p rest Hrest.
  do 4 try destruct p as [p|p|]; cbn [HexString.Raw.of_pos];
    try (apply IH); (split; [simpl; tauto|exact Hrest]).
Qed.

Lemma raw_to_N_copies_zero (n : nat) (digits : string) :
  HexString.Raw.to_N (append (copies n "0") digits) 0%N
  = HexString.Raw.to_N digits 0%N.
Proof. induction n as [|n IH]; simpl; [reflexivity|exact IH]. Qed.

(** The color of a number that is not negative: ["#"], zeros up to six
    digits, and the hexadecimal digits of the number. *)
Lemma dec2color_nonneg (dec : Z) :
  0 <= dec ->
  exists digits : string,
    slice_from 2 (hex dec) = digits
    /\ dec2color dec
       = String "#" (append (copies (6 - length digits) "0") digits)
    /\ made_of "0123456789abcdef" digits
    /\ HexString.Raw.to_N digits 0%N = Z.to_N dec
    /\ (dec < 16777216 -> (length digits <= 6)%nat)
    /\ (16777216 <= dec -> (7 <= length digits)%nat).
Proof.
  intros Hdec. destruct dec as [|p|p]; [| |lia].
  - exists "0". repeat split; try reflexivity; simpl; try tauto; lia.
  - exists (HexString.Raw.of_pos p "").
    split; [reflexivity|]. split.
    + unfold dec2color, times. cbn [hex HexString.of_Z HexString.of_pos slice_from].
      cbn [append]. do 3 f_equal. lia.
    + split; [apply raw_of_pos_made_of; exact I|].
      split; [rewrite HexString.Raw.to_N_of_pos; reflexivity|]. split.
      * intros Hlt. pose proof (raw_of_pos_length_le p "" 6 Hlt) as Hle.
        simpl in Hle. lia.
      * intros Hge. pose proof (raw_of_pos_length_ge p "" 6 Hge) as Hle.
        simpl in Hle. lia.
Qed.

(** X13: for a number from 0 to 16^6 - 1 the color string is ["#"]
    followed by exactly six characters, each of them a lower-case
    hexadecimal digit, and the six digits read as a hexadecimal number
    give the number back. *)
Theorem dec2color_is_a_six_digit_color (dec : Z) :
  0 <= dec < 16777216 ->
  exists digits : string,
    dec2color dec = String "#" digits
    /\ length digits = 6%nat
    /\ made_of "0123456789abcdef" digits
    /\ HexString.Raw.to_N digits 0%N = Z.to_N dec.
Proof.
  intros [Hlo Hhi].
  destruct (dec2color_nonneg dec Hlo)
    as (digits & _ & Heq & Hmade & Hread & Hle & _).
  specialize (Hle Hhi).
  exists (append (copies (6 - length digits) "0") digits).
  split; [exact Heq|]. split; [|split].
  - rewrite length_append, length_copies_zero. lia.
  - apply made_of_append; [apply made_of_copies_zero|exact Hmade].
  - rewrite raw_to_N_copies_zero. exact Hread.
Qed.

(** X13 at the number 255. *)
Lemma dec2color_is_a_six_digit_color_witness :
  dec2color 255 = "#0000ff"
  /\ exists digits : string,
       dec2color 255 = String "#" digits
       /\ length digits = 6%nat
       /\ made_of "0123456789abcdef" digits
       /\ HexString.Raw.to_N digits 0%N = Z.to_N 255.
Proof.
  split; [reflexivity|]. apply (dec2color_is_a_six_digit_color 255). lia.
Defined.

(** X14: two numbers that are not negative and have the same color string
    are equal: different numbers never share a color. *)
Theorem dec2color_is_injective (a b : Z) :
  0 <= a -> 0 <= b -> dec2color a = dec2color b -> a = b.
Proof.
  intros Ha Hb Heq.
  destruct (dec2color_nonneg a Ha) as (da & _ & Hca & _ & Hra & _).
  destruct (dec2color_nonneg b Hb) as (db & _ & Hcb & _ & Hrb & _).
  rewrite Hca, Hcb in Heq. injection Heq as Heq.
  apply (f_equal (fun s => HexString.Raw.to_N s 0%N)) in Heq.
  rewrite !raw_to_N_copies_zero, Hra, Hrb in Heq. lia.
Qed.

(** X14 at a number and itself. *)
Lemma dec2color_is_injective_witness : 255 = 255.
Proof.
  apply (dec2color_is_injective 255 255); [lia|lia|reflexivity].
Defined.

(** X15: outside that range no six-digit color comes out: a number from
    16^6 on gives ["#"] and more than six digits, without a zero in front;
    a negative number gives ["#"], zeros, the letter ["x"] and the digits of
    its absolute value. *)
Theorem dec2color_out_of_range (dec : Z) :
  (16777216 <= dec ->
   dec2color dec = String "#" (slice_from 2 (hex dec))
   /\ (7 <= length (slice_from 2 (hex dec)))%nat)
  /\ (dec < 0 ->
      exists digits : string,
        dec2color dec
        = String "#" (append (copies (5 - length digits) "0")
                        (String "x" digits))
        /\ HexString.Raw.to_N digits 0%N = Z.to_N (- dec)).
Proof.
  split.
  - intros Hge.
    destruct (dec2color_nonneg dec ltac:(lia))
      as (digits & <- & Heq & _ & _ & _ & Hlen).
    specialize (Hlen Hge). split; [|exact Hlen].
    rewrite Heq.
    replace (6 - length (slice_from 2 (hex dec)))%nat with 0%nat by lia.
    reflexivity.
  - intros Hneg. destruct dec as [|p|p]; [lia|lia|].
    exists (HexString.Raw.of_pos p ""). split.
    + unfold dec2color, times.
      cbn [hex HexString.of_Z HexString.of_pos slice_from].
      cbn [append]. do 3 f_equal. cbn [length]. lia.
    + rewrite HexString.Raw.to_N_of_pos. reflexivity.
Qed.

(** X15 at the numbers 16^6 and -1. *)
Lemma dec2color_out_of_range_witness :
  dec2color 16777216 = "#1000000" /\ dec2color (-1) = "#0000x1".
Proof.
  destruct (dec2color_out_of_range 16777216) as [Hbig _].
  destruct (dec2color_out_of_range (-1)) as [_ Hneg].
  destruct (Hbig ltac:(lia)) as [Heq _].
  split; [exact Heq|]. destruct (Hneg ltac:(lia)) as (digits & _ & _).
  reflexivity.
Defined.

End ColorFacts.

(** ** pretty_print *)

Module ReportFacts.
Import Stdlib.Strings.String Stdlib.Strings.Ascii.
Import Report.
#[local] Open Scope string_scope.

Lemma line_feeds_append (a b : string) :
  line_feeds (a ++ b) = (line_feeds a + line_feeds b)%nat.
Proof.
  induction a as [|c a IH]; simpl; [reflexivity|].
  destruct (Ascii.eqb c line_feed); rewrite IH; reflexivity.
Qed.

Lemma line_feeds_uint (d : Decimal.uint) :
  line_feeds (DecimalString.NilEmpty.string_of_uint d) = 0%nat.
Proof. induction d; simpl; assumption || reflexivity. Qed.

Lemma line_feeds_str_int (z : Z) : line_feeds (str_int z) = 0%nat.
Proof.
  unfold str_int, DecimalString.NilZero.string_of_int,
    DecimalString.NilZero.string_of_uint.
  destruct (Z.to_int z) as [d|d]; [|cbn [line_feeds Ascii.eqb]];
    destruct d; try reflexivity; apply line_feeds_uint.
Qed.

Lemma line_feeds_str_slot (sl : slot) : line_feeds (str_slot sl) = 0%nat.
Proof.
  unfold str_slot. rewrite !line_feeds_append, !line_feeds_str_int.
  reflexivity.
Qed.

Lemma line_feeds_print_slots (s : list slot) :
  line_feeds (print_slots s) = 0%nat.
Proof.
  induction s as [|sl s IH]; [reflexivity|].
  cbn [print_slots]. rewrite !line_feeds_append, line_feeds_str_slot, IH.
  reflexivity.
Qed.

Lemma line_feeds_print_machines (j : nat) (fs : list (list slot)) :
  line_feeds (print_machines j fs) = List.length fs.
Proof.
  revert j. induction fs as [|s fs IH]; intros j; [reflexivity|].
  cbn [print_machines]. rewrite !line_feeds_append, line_feeds_str_int,
    line_feeds_print_slots, IH. reflexivity.
Qed.

(** X16: the text that [pretty_print] writes has one line for every
    factory and one line for every machine of every factory, whatever the
    slots are. *)
Theorem pretty_print_line_count (schedules : list (list (list slot))) :
  line_feeds (pretty_print schedules)
  = (List.length schedules + List.length (List.concat schedules))%nat.
Proof.
  unfold pretty_print. generalize 0%nat.
  induction schedules as [|fs gs IH]; intros i; [reflexivity|].
  cbn [print_factories]. rewrite !line_feeds_append, line_feeds_str_int,
    line_feeds_print_machines, IH.
  cbn [List.length List.concat]. rewrite List.length_app.
  change (line_feeds "factory ") with 0%nat.
  change (line_feeds (String line_feed "")) with 1%nat. lia.
Qed.

End ReportFacts.
